(** * A shallow embedding of [s2.py] (Kerr orbit of S2 and light rays)

    Floating-point numbers of the script are modelled by the real numbers of
    the Standard Library: every theorem below is about the idealised real
    arithmetic the numerical code approximates.  numpy arrays of fixed shape
    are records, arrays of samples are lists, and Python exceptions are the
    [Err] case of a small result type. *)

From Stdlib Require Import Reals Lra Lia List ZArith Bool.
Import ListNotations.
Open Scope bool_scope.
Open Scope R_scope.

(** ** Small vectors and matrices (numpy arrays of shape 3, 3x3, 4, 4x4) *)

Record vec3 := V3 { v3x : R; v3y : R; v3z : R }.

Record mat3 := M3 {
  m00 : R; m01 : R; m02 : R;
  m10 : R; m11 : R; m12 : R;
  m20 : R; m21 : R; m22 : R }.

(** [m @ v] *)
Definition matvec3 (m : mat3) (v : vec3) : vec3 :=
  V3 (m00 m * v3x v + m01 m * v3y v + m02 m * v3z v)
     (m10 m * v3x v + m11 m * v3y v + m12 m * v3z v)
     (m20 m * v3x v + m21 m * v3y v + m22 m * v3z v).

(** [m @ n] *)
Definition matmul3 (m n : mat3) : mat3 :=
  M3 (m00 m * m00 n + m01 m * m10 n + m02 m * m20 n)
     (m00 m * m01 n + m01 m * m11 n + m02 m * m21 n)
     (m00 m * m02 n + m01 m * m12 n + m02 m * m22 n)
     (m10 m * m00 n + m11 m * m10 n + m12 m * m20 n)
     (m10 m * m01 n + m11 m * m11 n + m12 m * m21 n)
     (m10 m * m02 n + m11 m * m12 n + m12 m * m22 n)
     (m20 m * m00 n + m21 m * m10 n + m22 m * m20 n)
     (m20 m * m01 n + m21 m * m11 n + m22 m * m21 n)
     (m20 m * m02 n + m21 m * m12 n + m22 m * m22 n).

Definition transpose3 (m : mat3) : mat3 :=
  M3 (m00 m) (m10 m) (m20 m)
     (m01 m) (m11 m) (m21 m)
     (m02 m) (m12 m) (m22 m).

Definition vsub3 (u v : vec3) : vec3 :=
  V3 (v3x u - v3x v) (v3y u - v3y v) (v3z u - v3z v).

(** [u @ v] for two vectors *)
Definition dot3 (u v : vec3) : R :=
  v3x u * v3x v + v3y u * v3y v + v3z u * v3z v.

Definition det3 (m : mat3) : R :=
  m00 m * (m11 m * m22 m - m12 m * m21 m)
  - m01 m * (m10 m * m22 m - m12 m * m20 m)
  + m02 m * (m10 m * m21 m - m11 m * m20 m).

(** [np.linalg.solve m v]: raises [LinAlgError] on a singular matrix,
    otherwise returns the unique solution (Cramer's rule). *)
Definition solve3 (m : mat3) (v : vec3) : option vec3 :=
  if Req_EM_T (det3 m) 0 then None
  else Some (V3
    (det3 (M3 (v3x v) (m01 m) (m02 m) (v3y v) (m11 m) (m12 m) (v3z v) (m21 m) (m22 m)) / det3 m)
    (det3 (M3 (m00 m) (v3x v) (m02 m) (m10 m) (v3y v) (m12 m) (m20 m) (v3z v) (m22 m)) / det3 m)
    (det3 (M3 (m00 m) (m01 m) (v3x v) (m10 m) (m11 m) (v3y v) (m20 m) (m21 m) (v3z v)) / det3 m)).

Record vec4 := V4 { v4_0 : R; v4_1 : R; v4_2 : R; v4_3 : R }.

(** A 4x4 matrix as its four rows. *)
Record mat4 := M4 { row0 : vec4; row1 : vec4; row2 : vec4; row3 : vec4 }.

Definition dot4 (u v : vec4) : R :=
  v4_0 u * v4_0 v + v4_1 u * v4_1 v + v4_2 u * v4_2 v + v4_3 u * v4_3 v.

Definition matvec4 (m : mat4) (v : vec4) : vec4 :=
  V4 (dot4 (row0 m) v) (dot4 (row1 m) v) (dot4 (row2 m) v) (dot4 (row3 m) v).

Definition scale4 (c : R) (v : vec4) : vec4 :=
  V4 (c * v4_0 v) (c * v4_1 v) (c * v4_2 v) (c * v4_3 v).

(** ** numpy's [arctan2] and [arccos] on reals *)

Definition atan2 (y x : R) : R :=
  if Rlt_dec 0 x then atan (y / x)
  else if Rlt_dec x 0 then
    (if Rle_dec 0 y then atan (y / x) + PI else atan (y / x) - PI)
  else if Rlt_dec 0 y then PI / 2
  else if Rlt_dec y 0 then - (PI / 2)
  else 0.

Definition arccos (x : R) : R := acos x.

(** ** Boyer-Lindquist <-> Cartesian, black-hole frame *)

(** Lines 195-199 and 278-282: [(r, theta, phi)] to [(x, y, z)]. *)
Definition bl_to_xyz (a r theta phi : R) : vec3 :=
  V3 (sqrt (r ^ 2 + a * a) * sin theta * cos phi)
     (sqrt (r ^ 2 + a * a) * sin theta * sin phi)
     (r * cos theta).

(** Lines 135-140: [(x0, y0, z0)] to [(r0, theta0, phi0)]. *)
Definition xyz_to_bl_r (a : R) (p : vec3) : R :=
  let x0 := v3x p in let y0 := v3y p in let z0 := v3z p in
  let a_xyz := a * a - x0 * x0 - y0 * y0 - z0 * z0 in
  sqrt (-0.5 * a_xyz + 0.5 * sqrt (a_xyz * a_xyz + 4 * a * a * z0 * z0)).

Definition xyz_to_bl_theta (a : R) (p : vec3) : R :=
  arccos (v3z p / xyz_to_bl_r a p).

Definition xyz_to_bl_phi (p : vec3) : R := atan2 (v3y p) (v3x p).

(** Modelled from the spec: [utils.xyz_to_bl] (not in the sources), the
    inverse Boyer-Lindquist transform of section 4.6, written as the script
    itself writes it inline at lines 135-140. Returns [(r, theta, phi)]. *)
Definition xyz_to_bl (p : vec3) (a : R) : R * R * R :=
  (xyz_to_bl_r a p, xyz_to_bl_theta a p, xyz_to_bl_phi p).

(** Horizon radius: the larger root of [Delta r = r^2 - 2 r + a^2]. *)
Definition Delta (r a : R) : R := r * r - 2 * r + a * a.

Definition r_horizon (a : R) : R := 1 + sqrt (1 - a * a).

(** ** Module-level frame matrices (lines 24-111) *)

Definition a_spin : R := 0.99.

Definition incl : R := 134.18 * (PI / 180).
Definition long_asc : R := 226.94 * (PI / 180).
Definition arg_peri : R := 65.51 * (PI / 180).

Definition R_arg : mat3 :=
  M3 (cos arg_peri) (- sin arg_peri) 0
     (sin arg_peri) (cos arg_peri) 0
     0 0 1.
Definition R_incl : mat3 :=
  M3 1 0 0
     0 (cos incl) (- sin incl)
     0 (sin incl) (cos incl).
Definition R_long : mat3 :=
  M3 (cos long_asc) (- sin long_asc) 0
     (sin long_asc) (cos long_asc) 0
     0 0 1.

Definition obs_from_orb : mat3 := matmul3 (matmul3 R_long R_incl) R_arg.
Definition orb_from_obs : mat3 := transpose3 obs_from_orb.

Definition spin_phi : R := 0.
Definition spin_theta : R := 0.

Definition R_spin_phi : mat3 :=
  M3 (cos spin_phi) (sin spin_phi) 0
     (- sin spin_phi) (cos spin_phi) 0
     0 0 1.
Definition R_spin_theta : mat3 :=
  M3 (- cos spin_theta) 0 (sin spin_theta)
     0 1 0
     (- sin spin_theta) 0 (- cos spin_theta).

Definition bh_from_obs : mat3 := matmul3 R_spin_theta R_spin_phi.
Definition obs_from_bh : mat3 := transpose3 bh_from_obs.

(** ** Massive particle: proper-time normalisation (lines 167-173) *)

(** [dt_dtau = 1/np.sqrt(-(metric0 @ _u_dt) @ _u_dt)] and
    [_p = dt_dtau * _u_dt]. *)
Definition dt_dtau (metric0 : mat4) (u_dt : vec4) : R :=
  1 / sqrt (- dot4 (matvec4 metric0 u_dt) u_dt).

Definition p_of_u_dt (metric0 : mat4) (u_dt : vec4) : vec4 :=
  scale4 (dt_dtau metric0 u_dt) u_dt.

(** ** The Kerr metric used for light rays *)

Definition Sigma (r theta a : R) : R := r * r + a * a * cos theta ^ 2.

(** Modelled from the spec: [deriv_funcs_light.metric] (not in the
    sources), the covariant Kerr metric in Boyer-Lindquist coordinates
    [(t, r, theta, phi)] with mass 1 (section 4.1): [Delta = r^2 - 2r + a^2],
    off-diagonal coupling only between [t] and [phi]. It depends on [r] and
    [theta] only. *)
Definition metric_l (r theta a : R) : mat4 :=
  let s := Sigma r theta a in
  let sn2 := sin theta ^ 2 in
  M4 (V4 (- (1 - 2 * r / s)) 0 0 (- (2 * a * r * sn2 / s)))
     (V4 0 (s / Delta r a) 0 0)
     (V4 0 0 s 0)
     (V4 (- (2 * a * r * sn2 / s)) 0 0 ((r * r + a * a + 2 * a * a * r * sn2 / s) * sn2)).

(** ** Light rays: [minimum_distance] (lines 233-292) *)

(** Ray state [[r, theta, phi, pr, pt]]. *)
Record ray_state := RS { ray_r : R; ray_th : R; ray_ph : R; ray_pr : R; ray_pt : R }.

Definition z_inf : R := 100000.

(** The direction matrix of lines 247-251. *)
Definition dir_mat (x0 y0 z0 r0 theta0 a : R) : mat3 :=
  M3 (r0 * x0 / (r0 * r0 + a * a)) (- x0 * tan (theta0 - PI / 2)) (- y0)
     (r0 * y0 / (r0 * r0 + a * a)) (- y0 * tan (theta0 - PI / 2)) x0
     (z0 / r0) (- r0 * sin theta0) 0.

(** What lines 237-270 build before the integration: the lines printed by
    the [except] branch, the contravariant momentum [_p], the covariant
    momentum [_p_cov], the initial ray [ray0] and [b]. *)
Record ray_init := {
  ri_log : list mat3;
  ri_mat : mat3;
  ri_metric : mat4;
  ri_p : vec4;
  ri_p_cov : vec4;
  ri_ray0 : ray_state;
  ri_b : R }.

(** Lines 257-261: [_p = np.zeros(4); try: _p[1:4] = np.linalg.solve(mat, _v0)
    except: print(mat)]. The printed matrices and [_p[1:4]]. *)
Definition solve_or_print (mat : mat3) (v0 : vec3) : list mat3 * vec3 :=
  match solve3 mat v0 with
  | Some s => ([], s)
  | None => ([mat], V3 0 0 0)
  end.

Definition minimum_distance_init (x y a : R) : ray_init :=
  let xyz0 := matvec3 bh_from_obs (V3 x y z_inf) in
  let x0 := v3x xyz0 in let y0 := v3y xyz0 in let z0 := v3z xyz0 in
  let '(r0, theta0, phi0) := xyz_to_bl xyz0 a in
  let v0 := matvec3 bh_from_obs (V3 0 0 1) in
  let mat := dir_mat x0 y0 z0 r0 theta0 a in
  let metric0 := metric_l r0 theta0 a in
  let sp := solve_or_print mat v0 in
  let log := fst sp in
  let psp := snd sp in
  let p0 := (-1 - v3y psp * v4_2 (row0 metric0)) / v4_0 (row0 metric0) in
  let p := V4 p0 (v3x psp) (v3y psp) (v3z psp) in
  let p_cov := matvec4 metric0 p in
  {| ri_log := log; ri_mat := mat; ri_metric := metric0; ri_p := p;
     ri_p_cov := p_cov;
     ri_ray0 := RS r0 theta0 phi0 (v4_1 p_cov) (v4_2 p_cov);
     ri_b := v4_3 p_cov |}.

(** [np.linspace(start, stop, num)]. *)
Definition linspace (start stop : R) (num : nat) : list R :=
  match num with
  | O => []
  | S O => [start]
  | S k => map (fun i => start + INR i * ((stop - start) / INR k)) (seq 0 num)
  end.

(** [spi.odeint(deriv_l, ray0, zeta, (a, b))]: the solver is scipy's, so it
    is an argument of the model, from [a], [b], [ray0] and the grid. *)
Definition integrator : Type := R -> R -> ray_state -> list R -> list ray_state.

Definition ray_xyz_row (a : R) (s : ray_state) : vec3 :=
  V3 (sqrt (ray_r s * ray_r s + a * a) * sin (ray_th s) * cos (ray_ph s))
     (sqrt (ray_r s * ray_r s + a * a) * sin (ray_th s) * sin (ray_ph s))
     (ray_r s * cos (ray_th s)).

(** The loop of lines 285-290 over the rows of [ray_xyz]. *)
Fixpoint min_loop (pos : vec3) (rows : list vec3) (dist_sqr_min : R) : R :=
  match rows with
  | [] => dist_sqr_min
  | p :: rest =>
      let ray_obs := matvec3 obs_from_bh p in
      let disp := vsub3 ray_obs pos in
      let dist_sqr := dot3 disp disp in
      min_loop pos rest (if Rlt_dec dist_sqr dist_sqr_min then dist_sqr else dist_sqr_min)
  end.

(** Lines 276-292, from the integrated ray on. *)
Definition distance_from_ray (ray : list ray_state) (pos : vec3) (a : R) : R :=
  let ray_xyz := map (ray_xyz_row a) ray in
  let dist_sqr_min := 2 * z_inf * z_inf in
  sqrt (min_loop pos ray_xyz dist_sqr_min).

Definition ray_of (odeint : integrator) (x y a : R) (nt : nat) : list ray_state :=
  let ri := minimum_distance_init x y a in
  odeint a (ri_b ri) (ri_ray0 ri) (linspace 0 (-1.2 * z_inf) (nt + 1)).

(** [minimum_distance(x, y, pos, a, nt)]: the printed lines and the value. *)
Definition minimum_distance (odeint : integrator) (x y : R) (pos : vec3) (a : R) (nt : nat)
  : list mat3 * R :=
  (ri_log (minimum_distance_init x y a), distance_from_ray (ray_of odeint x y a nt) pos a).

(** The Euclidean distance, in the observer frame, from a sample of the ray
    to [pos], and the minimum of a list. *)
Definition sample_distance (a : R) (pos : vec3) (s : ray_state) : R :=
  let d := vsub3 (matvec3 obs_from_bh (ray_xyz_row a s)) pos in sqrt (dot3 d d).

Fixpoint list_min (l : list R) : option R :=
  match l with
  | [] => None
  | x :: rest =>
      match list_min rest with
      | None => Some x
      | Some m => Some (Rmin x m)
      end
  end.

(** ** Python exceptions *)

Inductive py_error := IndexError | ValueError.

Inductive result (A : Type) := Ok (x : A) | Err (e : py_error).
Arguments Ok {A} x.
Arguments Err {A} e.

Definition rbind {A B : Type} (m : result A) (f : A -> result B) : result B :=
  match m with Ok x => f x | Err e => Err e end.

Notation "x <- m ;; f" := (rbind m (fun x => f))
  (at level 61, m at next level, right associativity).

(** [l[i]] on a one-dimensional array. *)
Definition getitem {A : Type} (l : list A) (i : nat) : result A :=
  match nth_error l i with Some v => Ok v | None => Err IndexError end.

(** [l[idx]] with an integer index array (numpy fancy indexing). *)
Fixpoint fancy {A : Type} (l : list A) (idx : list nat) : result (list A) :=
  match idx with
  | [] => Ok []
  | i :: rest => v <- getitem l i ;; vs <- fancy l rest ;; Ok (v :: vs)
  end.

(** ** Orbit analysis (lines 193-221) *)

(** Massive state [[t, r, theta, phi, p_r, p_theta]]. *)
Record state6 := S6 { st_t : R; st_r : R; st_th : R; st_ph : R; st_pr : R; st_pt : R }.

(** One row of [orbit_orb]: [orbit_xyz] (lines 195-199), then
    [obs_from_bh] and [orb_from_obs] (lines 204-207). *)
Definition orb_row (a : R) (s : state6) : vec3 :=
  matvec3 orb_from_obs (matvec3 obs_from_bh (bl_to_xyz a (st_r s) (st_th s) (st_ph s))).

Definition orbit_orb_of (a : R) (orbit : list state6) : list vec3 := map (orb_row a) orbit.

Definition Rpos_b (x : R) : bool := if Rlt_dec 0 x then true else false.
Definition Rneg_b (x : R) : bool := if Rlt_dec x 0 then true else false.

(** Forward difference [l[i+1] - l[i]]. *)
Definition diff_at (l : list R) (i : nat) : R := nth (S i) l 0 - nth i l 0.

Definition interior (l : list R) (i : nat) : bool :=
  (1 <=? i)%nat && (S i <? length l)%nat.

(** Modelled from the spec: [utils.maxima] and [utils.minima] (not in the
    sources), "discrete extremum detection (sign change of finite
    difference)" of section 4.7: the interior indices where the forward
    difference changes sign from positive to negative (maxima) or from
    negative to positive (minima), in increasing order. *)
Definition maxima (l : list R) : list nat :=
  filter (fun i => interior l i && Rpos_b (diff_at l (i - 1)) && Rneg_b (diff_at l i))
         (seq 0 (length l)).

Definition minima (l : list R) : list nat :=
  filter (fun i => interior l i && Rneg_b (diff_at l (i - 1)) && Rpos_b (diff_at l i))
         (seq 0 (length l)).

(** Line 218: [simul_period = t[imaxs][1] - t[imaxs][0]]. *)
Definition simul_period_of (t : list R) (imaxs : list nat) : result R :=
  tm <- fancy t imaxs ;; t1 <- getitem tm 1 ;; t0 <- getitem tm 0 ;; Ok (t1 - t0).

(** Line 219: [simul_sma = (orbit_orb[imins, 0][0] - orbit_orb[imaxs, 0][0])/2]. *)
Definition simul_sma_of (xorb : list R) (imins imaxs : list nat) : result R :=
  xp <- fancy xorb imins ;; p <- getitem xp 0 ;;
  xa <- fancy xorb imaxs ;; q <- getitem xa 0 ;; Ok ((p - q) / 2).

(** Line 221: [deltaphase = phase[imaxs][1] + np.pi]. *)
Definition deltaphase_of (phase : list R) (imaxs : list nat) : result R :=
  ph <- fancy phase imaxs ;; d <- getitem ph 1 ;; Ok (d + PI).

(** Lines 210-221: period, semi-major axis and precession per orbit. *)
Definition orbit_analysis (a : R) (orbit : list state6) : result (R * R * R) :=
  let t := map st_t orbit in
  let pr := map st_pr orbit in
  let imaxs := maxima pr in
  let imins := minima pr in
  let orbit_orb := orbit_orb_of a orbit in
  let phase := map (fun p => atan2 (v3y p) (v3x p)) orbit_orb in
  per <- simul_period_of t imaxs ;;
  sma <- simul_sma_of (map v3x orbit_orb) imins imaxs ;;
  dp <- deltaphase_of phase imaxs ;;
  Ok (per, sma, dp).

(** ** The grid scan of lines 299-313 *)

(** What the script prints. *)
Inductive out := OClosest (v : R) | OMat (m : mat3) | OIJ (i j : nat).

Definition zeros2 (ny nx : nat) : list (list R) := repeat (repeat 0 nx) ny.

(** [np.min] of a two-dimensional array. *)
Definition np_min2 (g : list (list R)) : result R :=
  match concat g with
  | [] => Err ValueError
  | x :: rest => Ok (fold_left Rmin rest x)
  end.

(** [l[i] = v] on a list. *)
Definition list_set {A : Type} (l : list A) (i : nat) (v : A) : result (list A) :=
  if (i <? length l)%nat then Ok (firstn i l ++ v :: skipn (S i) l) else Err IndexError.

(** [g[j, i] = v]. *)
Definition grid_set (g : list (list R)) (j i : nat) (v : R) : result (list (list R)) :=
  row <- getitem g j ;; row' <- list_set row i v ;; list_set g j row'.

(** The body of the double loop, run over the cells [(i, j)] in order,
    threading the array and the printed output; an exception stops it. *)
Fixpoint scan (md : R -> R -> list mat3 * R) (xspace yspace : list R)
    (cells : list (nat * nat)) (g : list (list R)) (log : list out)
    : list out * result (list (list R)) :=
  match cells with
  | [] => (log, Ok g)
  | (i, j) :: rest =>
      match getitem xspace i, getitem yspace j with
      | Ok x, Ok y =>
          let '(printed, d) := md x y in
          let log' := log ++ map OMat printed in
          match grid_set g j i d with
          | Ok g' => scan md xspace yspace rest g' (log' ++ [OIJ i j])
          | Err e => (log', Err e)
          end
      | Err e, _ => (log, Err e)
      | _, Err e => (log, Err e)
      end
  end.

Definition nx : nat := 25.
Definition ny : nat := 25.

(** [for i in range(nx): for j in range(nx):] *)
Definition cells : list (nat * nat) :=
  flat_map (fun i => map (fun j => (i, j)) (seq 0 nx)) (seq 0 nx).

(** Lines 299-313: the array is created, its minimum printed, then filled. *)
Definition grid_scan (odeint : integrator) (peri_obs : vec3) (a : R)
    : list out * result (list (list R)) :=
  let xspace := linspace (-2231) (-2229) nx in
  let yspace := linspace 387 389 ny in
  let min_dist := zeros2 ny nx in
  match np_min2 min_dist with
  | Err e => ([], Err e)
  | Ok v =>
      scan (fun x y => minimum_distance odeint x y peri_obs a 10000)
           xspace yspace cells min_dist [OClosest v]
  end.

(** ** The initial state of S2 (lines 23-70 and 130-164) *)

(** Physical constants and orbital elements, converted to natural units
    (lines 23-57): lengths in half Schwarzschild radii, times in
    [1/2 r_s / c]. *)
Definition M : R := 4.28e6.
Definition R_0 : R := 8.32.
Definition YEAR : R := 86400 * 365.25.
Definition SGP_SUN : R := 1.32712440018e20.
Definition SOL : R := 299792458.
Definition AU : R := 149597870700.
Definition half_rs : R := SGP_SUN * M / (SOL * SOL).

Definition sma : R := 0.1255 * (1000 * R_0 * AU / half_rs).
Definition ecc : R := 0.8839.
Definition period : R := 16.0 * (YEAR * SOL / half_rs).
Definition ecc_anom : R := PI.

(** [np.linalg.norm] of a 3-vector. *)
Definition norm3 (v : vec3) : R := sqrt (dot3 v v).

(** Lines 60-63, [x_orb], as a function of the elements it reads. *)
Definition x_orb_at (sma ecc ecc_anom : R) : vec3 :=
  V3 (sma * (cos ecc_anom - ecc))
     (sma * (sqrt (1 - ecc * ecc) * sin ecc_anom))
     (sma * 0).

(** Lines 68-70, [v_orb]. *)
Definition v_orb_at (sma ecc ecc_anom period : R) : vec3 :=
  let c := 2 * PI * sma * sma / (norm3 (x_orb_at sma ecc ecc_anom) * period) in
  V3 (c * - sin ecc_anom)
     (c * (cos ecc_anom * sqrt (1 - ecc * ecc)))
     (c * 0).

Definition x_orb : vec3 := x_orb_at sma ecc ecc_anom.
Definition v_orb : vec3 := v_orb_at sma ecc ecc_anom period.

(** Lines 110-111: [bh_from_obs @ obs_from_orb @ x_orb], left to right. *)
Definition x_bh : vec3 := matvec3 (matmul3 bh_from_obs obs_from_orb) x_orb.
Definition v_bh : vec3 := matvec3 (matmul3 bh_from_obs obs_from_orb) v_orb.

(** Lines 130-164, from the start position [(x0, y0, z0)] in the black-hole
    frame and its velocity: [r0] and [theta0] (lines 135-140), the direction
    matrix [mat] (lines 157-161) and [_u_dt = [1, np.linalg.solve(mat, v)]]
    (lines 163-164). A singular [mat] raises [LinAlgError], which nothing
    catches: [None]. *)
Definition u_dt_of (a : R) (xyz0 v : vec3) : option vec4 :=
  let x0 := v3x xyz0 in let y0 := v3y xyz0 in let z0 := v3z xyz0 in
  let r0 := xyz_to_bl_r a xyz0 in
  let theta0 := xyz_to_bl_theta a xyz0 in
  let mat := dir_mat x0 y0 z0 r0 theta0 a in
  match solve3 mat v with
  | Some s => Some (V4 1 (v3x s) (v3y s) (v3z s))
  | None => None
  end.

Definition u_dt : option vec4 := u_dt_of a_spin x_bh v_bh.

(** The 3x3 identity. *)
Definition I3 : mat3 := M3 1 0 0 0 1 0 0 0 1.

(** [J] holds the partial derivatives of the map [(r, theta, phi) |->
    (x, y, z)] of lines 195-199 at [(r, theta, phi)]: row [k] is the
    coordinate [k], column [l] the variable [l]. *)
Definition is_bl_jacobian (a r theta phi : R) (J : mat3) : Prop :=
  derivable_pt_lim (fun r' => v3x (bl_to_xyz a r' theta phi)) r (m00 J) /\
  derivable_pt_lim (fun t' => v3x (bl_to_xyz a r t' phi)) theta (m01 J) /\
  derivable_pt_lim (fun p' => v3x (bl_to_xyz a r theta p')) phi (m02 J) /\
  derivable_pt_lim (fun r' => v3y (bl_to_xyz a r' theta phi)) r (m10 J) /\
  derivable_pt_lim (fun t' => v3y (bl_to_xyz a r t' phi)) theta (m11 J) /\
  derivable_pt_lim (fun p' => v3y (bl_to_xyz a r theta p')) phi (m12 J) /\
  derivable_pt_lim (fun r' => v3z (bl_to_xyz a r' theta phi)) r (m20 J) /\
  derivable_pt_lim (fun t' => v3z (bl_to_xyz a r t' phi)) theta (m21 J) /\
  derivable_pt_lim (fun p' => v3z (bl_to_xyz a r theta p')) phi (m22 J).

(** What the scan prints for the cell [(i, j)]: the matrices printed by
    [minimum_distance], then [i j]. *)
Definition cell_log (md : R -> R -> list mat3 * R) (xspace yspace : list R)
    (c : nat * nat) : list out :=
  let '(i, j) := c in
  map OMat (fst (md (nth i xspace 0) (nth j yspace 0))) ++ [OIJ i j].

(** A two-dimensional array of [rows] rows of [cols] entries. *)
Definition grid_shape (g : list (list R)) (rows cols : nat) : Prop :=
  length g = rows /\ forall jj, (jj < rows)%nat -> length (nth jj g []) = cols.

(** ** Sample inputs and evaluation tactics *)

(** Squared distance of one ray sample to the target, as in the loop body. *)
Definition sq_dist (pos : vec3) (p : vec3) : R :=
  let d := vsub3 (matvec3 obs_from_bh p) pos in dot3 d d.

(** An integrator run on a one-point grid returns the initial state. *)
Definition odeint_one_point : integrator := fun _ _ ray0 _ => [ray0].

(** The phases [arctan2(y, x)] of the orbital-plane positions. *)
Definition phase_of (a : R) (orbit : list state6) : list R :=
  map (fun p => atan2 (v3y p) (v3x p)) (orbit_orb_of a orbit).

Ltac eval_extrema :=
  unfold maxima, minima, interior, Rpos_b, Rneg_b, diff_at;
  cbn [map length seq filter nth Nat.leb Nat.ltb andb Nat.sub st_pr];
  repeat (match goal with
          | |- context [Rlt_dec ?x ?y] => destruct (Rlt_dec x y); try lra
          end; cbn [andb]);
  try reflexivity.

(** Two periods of [p_r]: maxima at samples 1 and 3. *)
Definition orbit_two_max : list state6 :=
  [S6 0 10 1 0 0 0; S6 1 10 1 0.1 1 0; S6 2 10 1 0.2 0 0;
   S6 3 10 1 0.3 1 0; S6 4 10 1 0.4 0 0].

(** One period of [p_r] only: a single maximum, at sample 1. *)
Definition orbit_one_max : list state6 :=
  [S6 0 10 1 0 0 0; S6 1 10 1 0.1 1 0; S6 2 10 1 0.2 0 0].

(** The adjugate of a 3x3 matrix. *)
Definition adj3 (m : mat3) : mat3 :=
  M3 (m11 m * m22 m - m12 m * m21 m) (m02 m * m21 m - m01 m * m22 m) (m01 m * m12 m - m02 m * m11 m)
     (m12 m * m20 m - m10 m * m22 m) (m00 m * m22 m - m02 m * m20 m) (m02 m * m10 m - m00 m * m12 m)
     (m10 m * m21 m - m11 m * m20 m) (m01 m * m20 m - m00 m * m21 m) (m00 m * m11 m - m01 m * m10 m).

(** [p_r] falls to a minimum at sample 1 (at [phi = 0]), rises to a
    maximum at sample 3 (at [phi = pi]), and has a second minimum and
    maximum at samples 4 and 5, on the equator at [r = 10]: two maxima, so
    line 218 succeeds and line 219 is reached. *)
Definition orbit_min_then_max : list state6 :=
  [S6 0 10 (PI / 2) 0 0 0; S6 1 10 (PI / 2) 0 (-1) 0; S6 2 10 (PI / 2) 0 0 0;
   S6 3 10 (PI / 2) PI 1 0; S6 4 10 (PI / 2) 0 0 0; S6 5 10 (PI / 2) 0 1 0;
   S6 6 10 (PI / 2) 0 0 0].

(** The same samples with the first two extremes swapped in place. *)
Definition orbit_max_then_min : list state6 :=
  [S6 0 10 (PI / 2) 0 0 0; S6 1 10 (PI / 2) PI (-1) 0; S6 2 10 (PI / 2) 0 0 0;
   S6 3 10 (PI / 2) 0 1 0; S6 4 10 (PI / 2) 0 0 0; S6 5 10 (PI / 2) 0 1 0;
   S6 6 10 (PI / 2) 0 0 0].

(** * Proofs *)

(** ** Real-number helpers *)

Lemma sqrt_eq_of_sq (u v : R) : 0 <= v -> v * v = u -> sqrt u = v.
Proof. intros Hv <-. apply sqrt_square; exact Hv. Qed.

Lemma sin_cos_sq (x : R) : sin x * sin x + cos x * cos x = 1.
Proof. pose proof (sin2_cos2 x) as H. unfold Rsqr in H. exact H. Qed.

Lemma sqrt_one_plus_sq (x y : R) (Hx : x <> 0) :
  sqrt (1 + (y / x)²) = sqrt (x * x + y * y) / Rabs x.
Proof.
  apply sqrt_eq_of_sq.
  - apply Rmult_le_pos; [apply sqrt_pos|].
    left; apply Rinv_0_lt_compat, Rabs_pos_lt, Hx.
  - assert (Hn : 0 <= x * x + y * y) by nra.
    unfold Rsqr.
    replace (sqrt (x * x + y * y) / Rabs x * (sqrt (x * x + y * y) / Rabs x))
      with ((sqrt (x * x + y * y) * sqrt (x * x + y * y)) / (Rabs x * Rabs x))
      by (field; apply Rabs_no_R0, Hx).
    rewrite sqrt_sqrt by exact Hn.
    rewrite <- Rabs_mult, Rabs_right by nra.
    field; exact Hx.
Qed.

(** [arctan2 y x] is the polar angle of [(x, y)]. *)
Lemma atan2_cos_sin (x y : R) :
  0 < x * x + y * y ->
  cos (atan2 y x) = x / sqrt (x * x + y * y) /\
  sin (atan2 y x) = y / sqrt (x * x + y * y).
Proof.
  intros Hpos.
  assert (HN : 0 < sqrt (x * x + y * y)) by (apply sqrt_lt_R0; exact Hpos).
  unfold atan2.
  destruct (Rlt_dec 0 x) as [Hx|Hx].
  - rewrite cos_atan, sin_atan, sqrt_one_plus_sq by lra.
    rewrite Rabs_right by lra.
    split; field; lra.
  - destruct (Rlt_dec x 0) as [Hx'|Hx'].
    + assert (Hs : sqrt (1 + (y / x)²) = sqrt (x * x + y * y) / - x).
      { rewrite sqrt_one_plus_sq by lra. rewrite Rabs_left by lra. reflexivity. }
      assert (Hc : cos (atan (y / x)) = - x / sqrt (x * x + y * y)).
      { rewrite cos_atan, Hs. field; lra. }
      assert (Hsn : sin (atan (y / x)) = - y / sqrt (x * x + y * y)).
      { rewrite sin_atan, Hs. field; lra. }
      destruct (Rle_dec 0 y).
      * rewrite neg_cos, neg_sin, Hc, Hsn. split; field; lra.
      * rewrite cos_minus, sin_minus, cos_PI, sin_PI, Hc, Hsn. split; field; lra.
    + assert (x = 0) as -> by lra.
      destruct (Rlt_dec 0 y) as [Hy|Hy].
      * rewrite cos_PI2, sin_PI2.
        rewrite (sqrt_eq_of_sq (0 * 0 + y * y) y) by (lra || ring).
        split; field; lra.
      * destruct (Rlt_dec y 0) as [Hy'|Hy'].
        -- rewrite cos_neg, sin_neg, cos_PI2, sin_PI2.
           rewrite (sqrt_eq_of_sq (0 * 0 + y * y) (- y)) by (lra || ring).
           split; field; lra.
        -- exfalso. assert (y = 0) by lra. subst. lra.
Qed.

Lemma atan2_polar (rho phi : R) :
  0 < rho ->
  cos (atan2 (rho * sin phi) (rho * cos phi)) = cos phi /\
  sin (atan2 (rho * sin phi) (rho * cos phi)) = sin phi.
Proof.
  intros Hr.
  pose proof (sin_cos_sq phi) as Hsc.
  assert (Hn : sqrt (rho * cos phi * (rho * cos phi) + rho * sin phi * (rho * sin phi)) = rho).
  { apply sqrt_eq_of_sq; [lra|].
    replace (rho * cos phi * (rho * cos phi) + rho * sin phi * (rho * sin phi))
      with (rho * rho * (sin phi * sin phi + cos phi * cos phi)) by ring.
    rewrite Hsc. ring. }
  destruct (atan2_cos_sin (rho * cos phi) (rho * sin phi)) as [Hc Hs].
  - replace (rho * cos phi * (rho * cos phi) + rho * sin phi * (rho * sin phi))
      with (rho * rho * (sin phi * sin phi + cos phi * cos phi)) by ring.
    rewrite Hsc. nra.
  - rewrite Hc, Hs, Hn. split; field; lra.
Qed.

(** Equal cosine and sine: equal modulo [2 pi]. *)
Lemma same_angle_mod_2pi (u v : R) :
  cos u = cos v -> sin u = sin v -> exists k : Z, u = v + 2 * IZR k * PI.
Proof.
  intros Hc Hs.
  assert (Hd : cos (u - v) = 1).
  { rewrite cos_minus, Hc, Hs. pose proof (sin_cos_sq v). lra. }
  assert (Hh : sin ((u - v) / 2) = 0).
  { replace (u - v) with (2 * ((u - v) / 2)) in Hd by field.
    rewrite cos_2a_sin in Hd. nra. }
  destruct (sin_eq_0_0 _ Hh) as [k Hk].
  exists k. lra.
Qed.

(** ** Boyer-Lindquist round trip *)

Lemma bl_a_xyz (a r theta phi : R) :
  let p := bl_to_xyz a r theta phi in
  a * a - v3x p * v3x p - v3y p * v3y p - v3z p * v3z p
  = a * a * (cos theta * cos theta) - r * r.
Proof.
  unfold bl_to_xyz; cbn [v3x v3y v3z].
  set (S := sqrt (r ^ 2 + a * a)).
  assert (HS : S * S = r * r + a * a).
  { unfold S. rewrite sqrt_sqrt by nra. ring. }
  pose proof (sin_cos_sq theta) as Ht. pose proof (sin_cos_sq phi) as Hp.
  replace (a * a - S * sin theta * cos phi * (S * sin theta * cos phi)
           - S * sin theta * sin phi * (S * sin theta * sin phi)
           - r * cos theta * (r * cos theta))
    with (a * a - (S * S) * (sin theta * sin theta) * (sin phi * sin phi + cos phi * cos phi)
          - r * r * (cos theta * cos theta)) by ring.
  rewrite HS, Hp.
  replace (sin theta * sin theta) with (1 - cos theta * cos theta) by lra.
  ring.
Qed.

(** Claim C5: converting [(r, theta, phi)] to Cartesian coordinates (lines
    195-199) and back (lines 135-140) gives back [r] and [theta], and [phi]
    up to a multiple of [2 pi], for [r] above the horizon radius and [theta]
    in the open interval [(0, pi)]. *)
Theorem bl_xyz_roundtrip (a r theta phi : R) :
  r_horizon a < r -> 0 < theta < PI ->
  let p := bl_to_xyz a r theta phi in
  xyz_to_bl_r a p = r /\
  xyz_to_bl_theta a p = theta /\
  exists k : Z, xyz_to_bl_phi p = phi + 2 * IZR k * PI.
Proof.
  intros Hr Hth p.
  assert (Hr0 : 0 < r).
  { unfold r_horizon in Hr. pose proof (sqrt_pos (1 - a * a)). lra. }
  assert (HR : xyz_to_bl_r a p = r).
  { unfold xyz_to_bl_r; cbv zeta.
    pose proof (bl_a_xyz a r theta phi) as Ha. cbv zeta in Ha. fold p in Ha.
    set (A := a * a - v3x p * v3x p - v3y p * v3y p - v3z p * v3z p) in *.
    assert (Hz : v3z p = r * cos theta) by reflexivity.
    rewrite Hz, Ha.
    assert (Hc2 : 0 <= a * a * (cos theta * cos theta)).
    { apply Rmult_le_pos; apply Rle_0_sqr. }
    rewrite (sqrt_eq_of_sq ((a * a * (cos theta * cos theta) - r * r) *
        (a * a * (cos theta * cos theta) - r * r) +
        4 * a * a * (r * cos theta) * (r * cos theta))
        (a * a * (cos theta * cos theta) + r * r)); [| nra | ring].
    apply sqrt_eq_of_sq; lra. }
  split; [exact HR|split].
  - unfold xyz_to_bl_theta, arccos. rewrite HR.
    replace (v3z p / r) with (cos theta) by (unfold p, bl_to_xyz; cbn [v3z]; field; lra).
    apply acos_cos; lra.
  - unfold xyz_to_bl_phi.
    assert (Hs : 0 < sin theta) by (apply sin_gt_0; lra).
    assert (HS : 0 < sqrt (r ^ 2 + a * a)) by (apply sqrt_lt_R0; nra).
    set (rho := sqrt (r ^ 2 + a * a) * sin theta).
    assert (Hrho : 0 < rho) by (unfold rho; nra).
    replace (v3y p) with (rho * sin phi) by (unfold p, bl_to_xyz, rho; cbn [v3x v3y]; ring).
    replace (v3x p) with (rho * cos phi) by (unfold p, bl_to_xyz, rho; cbn [v3x v3y]; ring).
    destruct (atan2_polar rho phi Hrho) as [Hc Hsn].
    apply same_angle_mod_2pi; assumption.
Qed.

Lemma bl_xyz_roundtrip_witness :
  r_horizon 0 < 3 /\ 0 < PI / 2 < PI /\
  (let p := bl_to_xyz 0 3 (PI / 2) 1 in
   xyz_to_bl_r 0 p = 3 /\ xyz_to_bl_theta 0 p = PI / 2 /\
   exists k : Z, xyz_to_bl_phi p = 1 + 2 * IZR k * PI).
Proof.
  assert (Hh : r_horizon 0 < 3).
  { unfold r_horizon. replace (1 - 0 * 0) with 1 by ring. rewrite sqrt_1. lra. }
  assert (Hp : 0 < PI / 2 < PI) by (pose proof PI_RGT_0; lra).
  split; [exact Hh|split; [exact Hp|]].
  exact (bl_xyz_roundtrip 0 3 (PI / 2) 1 Hh Hp).
Defined.

(** ** Normalisation of the massive 4-momentum *)

Lemma quad_form_scale (m : mat4) (c : R) (u : vec4) :
  dot4 (matvec4 m (scale4 c u)) (scale4 c u) = c * c * dot4 (matvec4 m u) u.
Proof.
  destruct m as [[] [] [] []], u.
  cbv [dot4 matvec4 scale4 v4_0 v4_1 v4_2 v4_3 row0 row1 row2 row3]. ring.
Qed.

(** Claim C6: when [_u_dt] is timelike for [metric0], the momentum
    [_p = _u_dt / sqrt(-(metric0 @ _u_dt) @ _u_dt)] of lines 168-170 has
    [g(_p, _p) = -1]. *)
Theorem p_normalised (metric0 : mat4) (u_dt : vec4) :
  dot4 (matvec4 metric0 u_dt) u_dt < 0 ->
  dot4 (matvec4 metric0 (p_of_u_dt metric0 u_dt)) (p_of_u_dt metric0 u_dt) = -1.
Proof.
  intros Hq.
  unfold p_of_u_dt, dt_dtau. rewrite quad_form_scale.
  set (q := dot4 (matvec4 metric0 u_dt) u_dt) in *.
  assert (Hs : sqrt (- q) * sqrt (- q) = - q) by (apply sqrt_sqrt; lra).
  assert (Hp : 0 < sqrt (- q)) by (apply sqrt_lt_R0; lra).
  replace (1 / sqrt (- q) * (1 / sqrt (- q)) * q)
    with (q / (sqrt (- q) * sqrt (- q))) by (field; lra).
  rewrite Hs. field. lra.
Qed.

Lemma p_normalised_witness :
  dot4 (matvec4 (M4 (V4 (-1) 0 0 0) (V4 0 1 0 0) (V4 0 0 1 0) (V4 0 0 0 1)) (V4 1 0 0 0))
       (V4 1 0 0 0) < 0 /\
  (let m := M4 (V4 (-1) 0 0 0) (V4 0 1 0 0) (V4 0 0 1 0) (V4 0 0 0 1) in
   dot4 (matvec4 m (p_of_u_dt m (V4 1 0 0 0))) (p_of_u_dt m (V4 1 0 0 0)) = -1).
Proof.
  assert (H : dot4 (matvec4 (M4 (V4 (-1) 0 0 0) (V4 0 1 0 0) (V4 0 0 1 0) (V4 0 0 0 1))
                   (V4 1 0 0 0)) (V4 1 0 0 0) < 0)
    by (cbv [dot4 matvec4 v4_0 v4_1 v4_2 v4_3 row0 row1 row2 row3]; lra).
  split; [exact H|].
  exact (p_normalised _ _ H).
Defined.

(** ** The initial light ray of [minimum_distance] *)

Lemma bh_from_obs_eq : bh_from_obs = M3 (-1) 0 0 0 1 0 0 0 (-1).
Proof.
  unfold bh_from_obs, R_spin_theta, R_spin_phi, spin_theta, spin_phi, matmul3.
  cbn. rewrite cos_0, sin_0. f_equal; ring.
Qed.

Lemma obs_from_bh_eq : obs_from_bh = M3 (-1) 0 0 0 1 0 0 0 (-1).
Proof. unfold obs_from_bh. rewrite bh_from_obs_eq. reflexivity. Qed.

Lemma xyz0_eq (x y : R) : matvec3 bh_from_obs (V3 x y z_inf) = V3 (- x) y (- z_inf).
Proof. rewrite bh_from_obs_eq. unfold matvec3; cbn. f_equal; ring. Qed.

Lemma v0_eq : matvec3 bh_from_obs (V3 0 0 1) = V3 0 0 (-1).
Proof. rewrite bh_from_obs_eq. unfold matvec3; cbn. f_equal; ring. Qed.

(** For a ray along the line of sight the solve gives [dphi/dt = 0]. *)
Lemma solve3_dir_phi (x0 y0 z0 r0 theta0 a : R) (s : vec3) :
  solve3 (dir_mat x0 y0 z0 r0 theta0 a) (V3 0 0 (-1)) = Some s -> v3z s = 0.
Proof.
  unfold solve3. destruct (Req_EM_T _ 0) as [_|Hd]; [discriminate|].
  intros H. injection H as <-. cbn [v3z].
  match goal with |- ?N / _ = 0 =>
    replace N with 0
      by (cbv [det3 dir_mat m00 m01 m02 m10 m11 m12 m20 m21 m22 v3x v3y v3z]; unfold Rdiv; ring)
  end.
  unfold Rdiv. ring.
Qed.

(** [r0] from [xyz_to_bl] is at least the Euclidean norm less the spin. *)
Lemma xyz_to_bl_r_sq_lower (a : R) (p : vec3) :
  v3x p * v3x p + v3y p * v3y p + v3z p * v3z p - a * a
  <= -0.5 * (a * a - v3x p * v3x p - v3y p * v3y p - v3z p * v3z p)
     + 0.5 * sqrt ((a * a - v3x p * v3x p - v3y p * v3y p - v3z p * v3z p)
                   * (a * a - v3x p * v3x p - v3y p * v3y p - v3z p * v3z p)
                   + 4 * a * a * v3z p * v3z p).
Proof.
  set (A := a * a - v3x p * v3x p - v3y p * v3y p - v3z p * v3z p).
  assert (H1 : Rabs A <= sqrt (A * A + 4 * a * a * v3z p * v3z p)).
  { rewrite <- sqrt_Rsqr_abs. apply sqrt_le_1_alt. unfold Rsqr.
    assert (0 <= a * a * (v3z p * v3z p)) by (apply Rmult_le_pos; apply Rle_0_sqr).
    nra. }
  pose proof (Rle_abs (- A)) as H2. rewrite Rabs_Ropp in H2.
  unfold A in *. lra.
Qed.

Lemma ray_r0_gt_2 (x y a : R) :
  -1 <= a <= 1 -> 2 < xyz_to_bl_r a (V3 (- x) y (- z_inf)).
Proof.
  intros Ha.
  pose proof (xyz_to_bl_r_sq_lower a (V3 (- x) y (- z_inf))) as H.
  cbn [v3x v3y v3z] in H.
  unfold xyz_to_bl_r; cbn [v3x v3y v3z].
  rewrite <- (sqrt_eq_of_sq 4 2) by lra.
  apply sqrt_lt_1_alt. split; [lra|].
  unfold z_inf in *. nra.
Qed.

Lemma metric_l_g00_neg (r theta a : R) :
  2 < r -> v4_0 (row0 (metric_l r theta a)) < 0.
Proof.
  intros Hr. unfold metric_l. cbn [row0 v4_0].
  assert (Hc : 0 <= a * a * cos theta ^ 2).
  { apply Rmult_le_pos; [apply Rle_0_sqr | apply pow2_ge_0]. }
  assert (HS : 2 * r < Sigma r theta a) by (unfold Sigma; nra).
  assert (Hq : 0 < (Sigma r theta a - 2 * r) / Sigma r theta a)
    by (apply Rdiv_lt_0_compat; lra).
  replace (2 * r / Sigma r theta a) with (1 - (Sigma r theta a - 2 * r) / Sigma r theta a)
    by (field; lra).
  lra.
Qed.

(** Line 265 followed by line 267, in the [t] component: with no [g_tr]
    term and no azimuthal velocity, [_p_cov[0] = -1] whatever [g_ttheta]. *)
Lemma energy_of_row0 (m : mat4) (psp : vec3) :
  v4_1 (row0 m) = 0 -> v4_0 (row0 m) <> 0 -> v3z psp = 0 ->
  v4_0 (matvec4 m (V4 ((-1 - v3y psp * v4_2 (row0 m)) / v4_0 (row0 m))
                      (v3x psp) (v3y psp) (v3z psp))) = -1.
Proof.
  intros H1 H0 H3.
  destruct m as [[g00 g01 g02 g03] r1 r2 r3]. cbn in *. rewrite H1, H3.
  unfold dot4. cbn. field. exact H0.
Qed.

(** Claim C8: the covariant momentum [_p_cov] that [minimum_distance]
    builds for the initial light ray has [E = -_p_cov[0] = 1], for every sky
    offset [(x, y)] and every spin [|a| <= 1], whether or not the solve of
    line 259 succeeds. *)
Theorem ray_energy_one (x y a : R) :
  -1 <= a <= 1 -> - v4_0 (ri_p_cov (minimum_distance_init x y a)) = 1.
Proof.
  intros Ha.
  unfold minimum_distance_init. rewrite xyz0_eq, v0_eq. unfold xyz_to_bl.
  cbv beta iota zeta.
  pose proof (ray_r0_gt_2 x y a Ha) as Hr.
  set (r0 := xyz_to_bl_r a (V3 (- x) y (- z_inf))) in *.
  set (th0 := xyz_to_bl_theta a (V3 (- x) y (- z_inf))).
  pose proof (metric_l_g00_neg r0 th0 a Hr) as Hg.
  unfold solve_or_print.
  destruct (solve3 _ _) as [s|] eqn:Hs; cbn [ri_p_cov fst snd].
  - rewrite energy_of_row0; [lra | reflexivity | lra |].
    exact (solve3_dir_phi _ _ _ _ _ _ s Hs).
  - rewrite energy_of_row0; [lra | reflexivity | lra | reflexivity].
Qed.

Lemma ray_energy_one_witness :
  -1 <= 0 <= 1 /\ - v4_0 (ri_p_cov (minimum_distance_init (-2230) 388 0)) = 1.
Proof.
  assert (H : -1 <= 0 <= 1) by lra.
  split; [exact H|].
  exact (ray_energy_one (-2230) 388 0 H).
Defined.

(** What [minimum_distance] does when the solve of line 259 raises: it
    prints the matrix and goes on with [_p[1:4] = 0] and
    [_p[0] = -1 / g_tt]. *)
Lemma init_singular (x y a : R) :
  let ri := minimum_distance_init x y a in
  solve3 (ri_mat ri) (matvec3 bh_from_obs (V3 0 0 1)) = None ->
  ri_log ri = [ri_mat ri] /\
  ri_p ri = V4 (-1 / v4_0 (row0 (ri_metric ri))) 0 0 0.
Proof.
  cbv zeta. intros H.
  unfold minimum_distance_init, xyz_to_bl in *. cbv beta iota zeta in *.
  cbn [ri_mat ri_log ri_p ri_metric] in *.
  unfold solve_or_print. rewrite H. cbn [fst snd v3x v3y v3z].
  split; [reflexivity|]. f_equal. unfold Rdiv. ring.
Qed.

Lemma init_mat_00_singular (a : R) :
  solve3 (ri_mat (minimum_distance_init 0 0 a)) (matvec3 bh_from_obs (V3 0 0 1)) = None.
Proof.
  unfold minimum_distance_init, xyz_to_bl. cbv beta iota zeta. cbn [ri_mat].
  rewrite xyz0_eq. cbn [v3x v3y v3z].
  unfold solve3. destruct (Req_EM_T _ 0) as [_|Hd]; [reflexivity|].
  exfalso. apply Hd.
  cbv [det3 dir_mat m00 m01 m02 m10 m11 m12 m20 m21 m22]. unfold Rdiv. ring.
Qed.

(** Claim C3 (as amended): when the direction solve of line 259 is singular,
    the exception is caught, the matrix is printed, and [minimum_distance]
    goes on with zero spatial momentum ([_p[0] = -1/g_tt]); its caller gets
    a distance, and the printed matrix is the only report. *)
Theorem singular_solve_continues (x y a : R) :
  let ri := minimum_distance_init x y a in
  solve3 (ri_mat ri) (matvec3 bh_from_obs (V3 0 0 1)) = None ->
  ri_p ri = V4 (-1 / v4_0 (row0 (ri_metric ri))) 0 0 0 /\
  forall (odeint : integrator) (pos : vec3) (nt : nat),
    minimum_distance odeint x y pos a nt
    = ([ri_mat ri], distance_from_ray (ray_of odeint x y a nt) pos a).
Proof.
  cbv zeta. intros H.
  destruct (init_singular x y a H) as [Hlog Hp].
  split; [exact Hp|].
  intros odeint pos nt. unfold minimum_distance. rewrite Hlog. reflexivity.
Qed.

Lemma singular_solve_continues_witness :
  solve3 (ri_mat (minimum_distance_init 0 0 0)) (matvec3 bh_from_obs (V3 0 0 1)) = None /\
  ri_p (minimum_distance_init 0 0 0)
  = V4 (-1 / v4_0 (row0 (ri_metric (minimum_distance_init 0 0 0)))) 0 0 0.
Proof.
  pose proof (init_mat_00_singular 0) as H.
  split; [exact H|].
  exact (proj1 (singular_solve_continues 0 0 0 H)).
Defined.

(** Claim C3, refuted: for the sky offset [(0, 0)] the solve is singular,
    and [minimum_distance] neither raises nor returns an error: the
    failure is swallowed after printing the matrix, and the ray is built
    from an all-zero spatial momentum. *)
Lemma singular_solve_swallowed :
  let ri := minimum_distance_init 0 0 0 in
  solve3 (ri_mat ri) (matvec3 bh_from_obs (V3 0 0 1)) = None /\
  ri_log ri = [ri_mat ri] /\
  v4_1 (ri_p ri) = 0 /\ v4_2 (ri_p ri) = 0 /\ v4_3 (ri_p ri) = 0.
Proof.
  cbv zeta.
  pose proof (init_mat_00_singular 0) as H.
  destruct (init_singular 0 0 0 H) as [Hlog Hp].
  rewrite Hp. cbn [v4_1 v4_2 v4_3].
  repeat split; [exact H | exact Hlog].
Qed.

(** ** The minimum-distance loop *)

Lemma min_loop_eq (pos : vec3) (rows : list vec3) (acc : R) :
  min_loop pos rows acc =
  match list_min (map (sq_dist pos) rows) with
  | None => acc
  | Some m => Rmin acc m
  end.
Proof.
  revert acc. induction rows as [|p rest IH]; intros acc; [reflexivity|].
  cbn [min_loop map list_min]. rewrite IH. fold (sq_dist pos p).
  destruct (list_min (map (sq_dist pos) rest)) as [m|];
    destruct (Rlt_dec (sq_dist pos p) acc);
    unfold Rmin; repeat destruct Rle_dec; lra.
Qed.

Lemma sqrt_Rmin (u v : R) : sqrt (Rmin u v) = Rmin (sqrt u) (sqrt v).
Proof.
  unfold Rmin. destruct (Rle_dec u v) as [H|H]; destruct (Rle_dec (sqrt u) (sqrt v)) as [H'|H'];
    try reflexivity.
  - exfalso. apply H'. apply sqrt_le_1_alt. exact H.
  - apply Rle_antisym; [|lra]. apply sqrt_le_1_alt. lra.
Qed.

Lemma list_min_map_sqrt (l : list R) :
  list_min (map sqrt l) = option_map sqrt (list_min l).
Proof.
  induction l as [|d rest IH]; [reflexivity|].
  cbn [map list_min]. rewrite IH.
  destruct (list_min rest); cbn; [rewrite sqrt_Rmin|]; reflexivity.
Qed.

Lemma sentinel_sqrt : sqrt (2 * z_inf * z_inf) = sqrt 2 * z_inf.
Proof.
  rewrite Rmult_assoc, sqrt_mult by (unfold z_inf; lra).
  rewrite sqrt_square by (unfold z_inf; lra). reflexivity.
Qed.

(** The value of lines 276-292: the smaller of the sentinel [sqrt 2 * z_inf]
    and the least distance from a sample of the ray to [pos]. *)
Lemma distance_from_ray_eq (ray : list ray_state) (pos : vec3) (a : R) :
  distance_from_ray ray pos a =
  match list_min (map (sample_distance a pos) ray) with
  | None => sqrt 2 * z_inf
  | Some m => Rmin (sqrt 2 * z_inf) m
  end.
Proof.
  unfold distance_from_ray. rewrite min_loop_eq.
  replace (map (sample_distance a pos) ray)
    with (map sqrt (map (sq_dist pos) (map (ray_xyz_row a) ray))).
  2:{ rewrite !map_map. reflexivity. }
  rewrite list_min_map_sqrt.
  destruct (list_min _); cbn [option_map]; rewrite <- sentinel_sqrt;
    [apply sqrt_Rmin | reflexivity].
Qed.

Lemma list_min_gt (c : R) (l : list R) (m : R) :
  Forall (fun d => c < d) l -> list_min l = Some m -> c < m.
Proof.
  revert m. induction l as [|d rest IH]; intros m Hall Hm; [discriminate|].
  inversion Hall as [|? ? Hd Hrest]; subst.
  cbn in Hm. destruct (list_min rest) as [m'|] eqn:E.
  - injection Hm as <-. specialize (IH m' Hrest eq_refl).
    unfold Rmin. destruct Rle_dec; lra.
  - injection Hm as <-. exact Hd.
Qed.

Lemma Forall_map_sample (c a : R) (pos : vec3) (ray : list ray_state) :
  Forall (fun s => c < sample_distance a pos s) ray <->
  Forall (fun d => c < d) (map (sample_distance a pos) ray).
Proof. rewrite Forall_map. reflexivity. Qed.

Lemma sqrt2_lt_2 : sqrt 2 < 2.
Proof.
  assert (H4 : sqrt 4 = 2) by (apply sqrt_eq_of_sq; lra).
  apply Rlt_le_trans with (sqrt 4); [apply sqrt_lt_1_alt; lra | lra].
Qed.

(** For [nt = 0], [(x, y) = (0, 0)] and [a = 0] the single sample is the
    start of the ray, [z_inf] along the line of sight; its distance to
    [(0, 0, -10^6)] is [1.1 * 10^6]. *)
Lemma one_sample_distance :
  map (sample_distance 0 (V3 0 0 (-1000000))) (ray_of odeint_one_point 0 0 0 0)
  = [1100000].
Proof.
  unfold ray_of, odeint_one_point, minimum_distance_init, xyz_to_bl.
  cbv beta iota zeta. cbn [ri_ray0 map].
  rewrite xyz0_eq. cbn [v3x v3y v3z].
  assert (Hr : xyz_to_bl_r 0 (V3 (- 0) 0 (- z_inf)) = z_inf).
  { unfold xyz_to_bl_r; cbn [v3x v3y v3z].
    rewrite (sqrt_eq_of_sq ((0 * 0 - - 0 * - 0 - 0 * 0 - - z_inf * - z_inf) *
                            (0 * 0 - - 0 * - 0 - 0 * 0 - - z_inf * - z_inf) +
                            4 * 0 * 0 * - z_inf * - z_inf) (z_inf * z_inf));
      [| unfold z_inf; lra | ring].
    apply sqrt_eq_of_sq; unfold z_inf; lra. }
  assert (Ht : xyz_to_bl_theta 0 (V3 (- 0) 0 (- z_inf)) = PI).
  { unfold xyz_to_bl_theta, arccos, acos. rewrite Hr. cbn [v3z].
    destruct (Rle_dec (- z_inf / z_inf) (-1)) as [_|H]; [reflexivity|].
    exfalso. apply H. unfold z_inf. right. field. }
  unfold sample_distance, ray_xyz_row. cbn [ray_r ray_th ray_ph].
  rewrite Hr, Ht, sin_PI, cos_PI, obs_from_bh_eq.
  cbv [matvec3 vsub3 dot3 v3x v3y v3z m00 m01 m02 m10 m11 m12 m20 m21 m22].
  f_equal. apply sqrt_eq_of_sq; unfold z_inf; lra.
Qed.

(** Claim C1, what the code computes: [minimum_distance] returns the
    smaller of the start value [sqrt 2 * z_inf] (from [dist_sqr_min =
    2*z_inf*z_inf], line 284, commented "further than possible start") and
    the least Euclidean distance, in the observer frame, from a sample of
    the integrated ray to [pos]; with no sample it returns the start value.
    The true minimum is returned only when the start value does not win. *)
Theorem minimum_distance_value (odeint : integrator) (x y : R) (pos : vec3) (a : R) (nt : nat) :
  snd (minimum_distance odeint x y pos a nt) =
  match list_min (map (sample_distance a pos) (ray_of odeint x y a nt)) with
  | None => sqrt 2 * z_inf
  | Some m => Rmin (sqrt 2 * z_inf) m
  end.
Proof. unfold minimum_distance. cbn [snd]. apply distance_from_ray_eq. Qed.

(** Claim C1, the failing input: with [nt = 0] (a single sample, the start
    of the ray), [(x, y) = (0, 0)], [a = 0] and [pos = (0, 0, -10^6)], the
    only sample is [1.1 * 10^6] away from [pos], farther than the start
    value the comment of line 284 takes to be out of reach, and
    [minimum_distance] returns [sqrt 2 * 10^5] instead of the true
    minimum. *)
Lemma minimum_distance_not_true_min :
  ~ (forall (odeint : integrator) (x y : R) (pos : vec3) (a : R) (nt : nat),
       list_min (map (sample_distance a pos) (ray_of odeint x y a nt))
       = Some (snd (minimum_distance odeint x y pos a nt))).
Proof.
  intros H.
  specialize (H odeint_one_point 0 0 (V3 0 0 (-1000000)) 0 0%nat).
  unfold minimum_distance in H. cbn [snd] in H.
  rewrite distance_from_ray_eq, one_sample_distance in H. cbn [list_min] in H.
  injection H as H.
  pose proof sqrt2_lt_2. pose proof (sqrt_pos 2).
  unfold Rmin in H. destruct Rle_dec; unfold z_inf in *; lra.
Qed.

(** Claim C9: [minimum_distance] never exceeds [sqrt 2 * z_inf], and when
    every sample of the ray is farther than that from [pos] it returns
    exactly the sentinel [sqrt 2 * z_inf] instead of the true minimum. *)
Theorem minimum_distance_sentinel (odeint : integrator) (x y : R) (pos : vec3) (a : R) (nt : nat) :
  snd (minimum_distance odeint x y pos a nt) <= sqrt 2 * z_inf /\
  (Forall (fun s => sqrt 2 * z_inf < sample_distance a pos s) (ray_of odeint x y a nt) ->
   snd (minimum_distance odeint x y pos a nt) = sqrt 2 * z_inf).
Proof.
  unfold minimum_distance. cbn [snd]. rewrite distance_from_ray_eq.
  destruct (list_min _) as [m|] eqn:E.
  - split; [apply Rmin_l|].
    intros Hall. rewrite Forall_map_sample in Hall.
    pose proof (list_min_gt _ _ _ Hall E).
    unfold Rmin. destruct Rle_dec; lra.
  - split; [lra | reflexivity].
Qed.

Lemma minimum_distance_sentinel_witness :
  Forall (fun s => sqrt 2 * z_inf < sample_distance 0 (V3 0 0 (-1000000)) s)
         (ray_of odeint_one_point 0 0 0 0) /\
  snd (minimum_distance odeint_one_point 0 0 (V3 0 0 (-1000000)) 0 0)
  = sqrt 2 * z_inf.
Proof.
  assert (H : Forall (fun s => sqrt 2 * z_inf < sample_distance 0 (V3 0 0 (-1000000)) s)
                     (ray_of odeint_one_point 0 0 0 0)).
  { apply Forall_map_sample. rewrite one_sample_distance.
    pose proof sqrt2_lt_2. pose proof (sqrt_pos 2).
    constructor; [unfold z_inf; lra | constructor]. }
  split; [exact H|].
  exact (proj2 (minimum_distance_sentinel odeint_one_point 0 0 (V3 0 0 (-1000000)) 0 0) H).
Defined.

(** ** Orbit analysis *)

Lemma fancy_valid {A : Type} (l : list A) (idx : list nat) :
  Forall (fun i => (i < length l)%nat) idx ->
  exists vs, fancy l idx = Ok vs /\ Forall2 (fun i v => nth_error l i = Some v) idx vs.
Proof.
  induction idx as [|i rest IH]; intros Hall.
  - exists []. split; [reflexivity | constructor].
  - inversion Hall as [|? ? Hi Hrest]; subst.
    destruct (IH Hrest) as [vs [Hf H2]].
    destruct (nth_error l i) as [v|] eqn:E.
    + exists (v :: vs). cbn. unfold getitem. rewrite E, Hf.
      split; [reflexivity | constructor; assumption].
    + apply nth_error_None in E. lia.
Qed.

Lemma filter_seq_lt (f : nat -> bool) (n : nat) :
  Forall (fun i => (i < n)%nat) (filter f (seq 0 n)).
Proof.
  apply Forall_forall. intros i Hi.
  apply filter_In in Hi as [Hi _]. apply in_seq in Hi. lia.
Qed.

Lemma maxima_valid {A : Type} (l : list A) (f : A -> R) :
  Forall (fun i => (i < length l)%nat) (maxima (map f l)).
Proof. unfold maxima. rewrite length_map. apply filter_seq_lt. Qed.

Lemma minima_valid {A : Type} (l : list A) (f : A -> R) :
  Forall (fun i => (i < length l)%nat) (minima (map f l)).
Proof. unfold minima. rewrite length_map. apply filter_seq_lt. Qed.

Lemma Forall_valid_map {A B : Type} (l : list A) (f : A -> B) (idx : list nat) :
  Forall (fun i => (i < length l)%nat) idx ->
  Forall (fun i => (i < length (map f l))%nat) idx.
Proof. rewrite length_map. exact (fun H => H). Qed.

Lemma nth_error_map_some {A B : Type} (f : A -> B) (l : list A) (i : nat) (v : B) :
  nth_error (map f l) i = Some v -> exists s, nth_error l i = Some s /\ v = f s.
Proof.
  rewrite nth_error_map. destruct (nth_error l i) as [s|]; [|discriminate].
  intros H. injection H as <-. exists s. split; reflexivity.
Qed.

(** Claim C2: with at least two detected maxima [i0 < i1 < ...] of [p_r],
    [simul_period = t[i1] - t[i0]] and [deltaphase = arctan2(y, x) + pi] at
    [i1] in orbital-plane coordinates; when the whole analysis succeeds these
    are the values it returns. *)
Theorem period_and_precession (a : R) (orbit : list state6) (i0 i1 : nat) (rest : list nat) :
  maxima (map st_pr orbit) = i0 :: i1 :: rest ->
  exists s0 s1,
    nth_error orbit i0 = Some s0 /\ nth_error orbit i1 = Some s1 /\
    simul_period_of (map st_t orbit) (maxima (map st_pr orbit)) = Ok (st_t s1 - st_t s0) /\
    deltaphase_of (phase_of a orbit) (maxima (map st_pr orbit))
      = Ok (atan2 (v3y (orb_row a s1)) (v3x (orb_row a s1)) + PI) /\
    (forall per sma dp, orbit_analysis a orbit = Ok (per, sma, dp) ->
       per = st_t s1 - st_t s0 /\
       dp = atan2 (v3y (orb_row a s1)) (v3x (orb_row a s1)) + PI).
Proof.
  intros Hm.
  pose proof (maxima_valid orbit st_pr) as Hv. rewrite Hm in Hv.
  destruct (fancy_valid (map st_t orbit) _ (Forall_valid_map _ _ _ Hv)) as [ts [Ht Ht2]].
  destruct (fancy_valid (phase_of a orbit) (i0 :: i1 :: rest)) as [ps [Hp Hp2]].
  { unfold phase_of, orbit_orb_of. rewrite !length_map. exact Hv. }
  inversion Ht2 as [|? t0 ? ts1 Ht0 Ht2']; subst.
  inversion Ht2' as [|? t1 ? ts2 Ht1 _]; subst.
  inversion Hp2 as [|? p0 ? ps1 _ Hp2']; subst.
  inversion Hp2' as [|? p1 ? ps2 Hp1 _]; subst.
  destruct (nth_error_map_some _ _ _ _ Ht0) as [s0 [Hs0 ->]].
  destruct (nth_error_map_some _ _ _ _ Ht1) as [s1 [Hs1 ->]].
  unfold phase_of, orbit_orb_of in Hp1. rewrite map_map in Hp1.
  rewrite nth_error_map, Hs1 in Hp1. injection Hp1 as <-.
  assert (HP : simul_period_of (map st_t orbit) (maxima (map st_pr orbit))
               = Ok (st_t s1 - st_t s0)).
  { rewrite Hm. unfold simul_period_of. rewrite Ht. reflexivity. }
  assert (HD : deltaphase_of (phase_of a orbit) (maxima (map st_pr orbit))
               = Ok (atan2 (v3y (orb_row a s1)) (v3x (orb_row a s1)) + PI)).
  { rewrite Hm. unfold deltaphase_of. rewrite Hp. reflexivity. }
  exists s0, s1. split; [exact Hs0|]. split; [exact Hs1|].
  split; [exact HP|]. split; [exact HD|].
  intros pd sma dp H. unfold orbit_analysis in H. fold (phase_of a orbit) in H.
  rewrite HP in H. cbn in H. destruct (simul_sma_of _ _ _); [|discriminate].
  cbn in H. rewrite HD in H. cbn in H. injection H as <- _ <-. split; reflexivity.
Qed.

Lemma orbit_two_max_maxima : maxima (map st_pr orbit_two_max) = [1%nat; 3%nat].
Proof. unfold orbit_two_max. eval_extrema. Qed.

Lemma period_and_precession_witness :
  maxima (map st_pr orbit_two_max) = [1%nat; 3%nat] /\
  exists s0 s1,
    nth_error orbit_two_max 1 = Some s0 /\ nth_error orbit_two_max 3 = Some s1 /\
    simul_period_of (map st_t orbit_two_max) (maxima (map st_pr orbit_two_max))
      = Ok (st_t s1 - st_t s0) /\
    deltaphase_of (phase_of a_spin orbit_two_max) (maxima (map st_pr orbit_two_max))
      = Ok (atan2 (v3y (orb_row a_spin s1)) (v3x (orb_row a_spin s1)) + PI) /\
    (forall per sma dp, orbit_analysis a_spin orbit_two_max = Ok (per, sma, dp) ->
       per = st_t s1 - st_t s0 /\
       dp = atan2 (v3y (orb_row a_spin s1)) (v3x (orb_row a_spin s1)) + PI).
Proof.
  split; [exact orbit_two_max_maxima|].
  exact (period_and_precession a_spin orbit_two_max 1 3 [] orbit_two_max_maxima).
Defined.

Lemma orbit_one_max_maxima : maxima (map st_pr orbit_one_max) = [1%nat].
Proof. unfold orbit_one_max. eval_extrema. Qed.

(** With fewer than two maxima, [t[imaxs][1]] reads past the end. *)
Lemma period_index_error (t pr : list R) :
  length t = length pr -> (length (maxima pr) < 2)%nat ->
  simul_period_of t (maxima pr) = Err IndexError.
Proof.
  intros Hlen Hm.
  assert (Hv : Forall (fun i => (i < length t)%nat) (maxima pr)).
  { rewrite Hlen. unfold maxima. apply filter_seq_lt. }
  destruct (fancy_valid t _ Hv) as [ts [Ht Ht2]].
  apply Forall2_length in Ht2.
  unfold simul_period_of. rewrite Ht. cbn.
  unfold getitem. replace (nth_error ts 1) with (@None R); [reflexivity|].
  symmetry. apply nth_error_None. lia.
Qed.

(** Claim C4 (as amended): with fewer than two detected maxima of [p_r]
    the analysis raises [IndexError] from [t[imaxs][1]] (line 218): there is
    no [InsufficientExtrema] check. *)
Theorem insufficient_maxima_index_error (a : R) (orbit : list state6) :
  (length (maxima (map st_pr orbit)) < 2)%nat ->
  simul_period_of (map st_t orbit) (maxima (map st_pr orbit)) = Err IndexError /\
  orbit_analysis a orbit = Err IndexError.
Proof.
  intros Hm.
  assert (HP : simul_period_of (map st_t orbit) (maxima (map st_pr orbit)) = Err IndexError).
  { apply period_index_error; [rewrite !length_map; reflexivity | exact Hm]. }
  split; [exact HP|].
  unfold orbit_analysis. rewrite HP. reflexivity.
Qed.

Lemma insufficient_maxima_index_error_witness :
  (length (maxima (map st_pr orbit_one_max)) < 2)%nat /\
  simul_period_of (map st_t orbit_one_max) (maxima (map st_pr orbit_one_max)) = Err IndexError /\
  orbit_analysis a_spin orbit_one_max = Err IndexError.
Proof.
  assert (H : (length (maxima (map st_pr orbit_one_max)) < 2)%nat)
    by (rewrite orbit_one_max_maxima; cbn; lia).
  split; [exact H|].
  exact (insufficient_maxima_index_error a_spin orbit_one_max H).
Defined.

(** Claim C4, refuted: on a trajectory with one maximum of [p_r], [t[imaxs]]
    has one element and [t[imaxs][1]] is an out-of-range read; the analysis
    stops with [IndexError], not with a failure of its own. *)
Lemma one_max_out_of_range :
  maxima (map st_pr orbit_one_max) = [1%nat] /\
  fancy (map st_t orbit_one_max) [1%nat] = Ok [1] /\
  getitem [1] 1 = Err IndexError /\
  orbit_analysis a_spin orbit_one_max = Err IndexError.
Proof.
  split; [exact orbit_one_max_maxima|].
  split; [reflexivity|]. split; [reflexivity|].
  unfold orbit_analysis. cbv zeta. rewrite orbit_one_max_maxima. reflexivity.
Qed.

(** ** The frame changes are invertible *)

Lemma det3_transpose (m : mat3) : det3 (transpose3 m) = det3 m.
Proof. destruct m; cbv [det3 transpose3 m00 m01 m02 m10 m11 m12 m20 m21 m22]. ring. Qed.

Lemma det3_matmul (m n : mat3) : det3 (matmul3 m n) = det3 m * det3 n.
Proof.
  destruct m, n; cbv [det3 matmul3 m00 m01 m02 m10 m11 m12 m20 m21 m22]. ring.
Qed.

Lemma det3_rot_z (c s : R) : s * s + c * c = 1 -> det3 (M3 c (- s) 0 s c 0 0 0 1) = 1.
Proof. intros H. cbv [det3 m00 m01 m02 m10 m11 m12 m20 m21 m22]. nra. Qed.

Lemma det3_R_incl : det3 R_incl = 1.
Proof.
  pose proof (sin_cos_sq incl).
  unfold R_incl. cbv [det3 m00 m01 m02 m10 m11 m12 m20 m21 m22]. nra.
Qed.

Lemma det3_orb_from_obs : det3 orb_from_obs = 1.
Proof.
  unfold orb_from_obs, obs_from_orb.
  rewrite det3_transpose, !det3_matmul, det3_R_incl.
  unfold R_long, R_arg.
  rewrite !det3_rot_z by apply sin_cos_sq. ring.
Qed.

Lemma det3_obs_from_bh : det3 obs_from_bh = 1.
Proof.
  rewrite obs_from_bh_eq. cbv [det3 m00 m01 m02 m10 m11 m12 m20 m21 m22]. ring.
Qed.

Lemma adj3_matvec3 (m : mat3) (w : vec3) :
  matvec3 (adj3 m) (matvec3 m w) = V3 (det3 m * v3x w) (det3 m * v3y w) (det3 m * v3z w).
Proof.
  destruct m, w.
  cbv [adj3 matvec3 det3 m00 m01 m02 m10 m11 m12 m20 m21 m22 v3x v3y v3z].
  f_equal; ring.
Qed.

Lemma matvec3_inj (m : mat3) (u v : vec3) :
  det3 m <> 0 -> matvec3 m u = matvec3 m v -> u = v.
Proof.
  intros Hd H.
  apply (f_equal (matvec3 (adj3 m))) in H. rewrite !adj3_matvec3 in H.
  injection H as Hx Hy Hz.
  apply Rmult_eq_reg_l in Hx, Hy, Hz; try exact Hd.
  destruct u, v; cbn in *; subst; reflexivity.
Qed.

Lemma orb_row_inj (a : R) (s s' : state6) :
  orb_row a s = orb_row a s' ->
  bl_to_xyz a (st_r s) (st_th s) (st_ph s) = bl_to_xyz a (st_r s') (st_th s') (st_ph s').
Proof.
  unfold orb_row. intros H.
  apply matvec3_inj in H; [| rewrite det3_orb_from_obs; lra].
  apply matvec3_inj in H; [exact H | rewrite det3_obs_from_bh; lra].
Qed.

(** ** Semi-major axis *)

(** With a first minimum [j0] and at least two maxima [i0 < i1 < ...] of
    [p_r], lines 218-221 all succeed and the semi-major axis returned is
    half the difference of the orbital-plane [x] coordinates at [j0] and
    [i0]. *)
Lemma orbit_analysis_sma (a : R) (orbit : list state6)
    (j0 i0 i1 : nat) (js is : list nat) :
  minima (map st_pr orbit) = j0 :: js ->
  maxima (map st_pr orbit) = i0 :: i1 :: is ->
  exists P A per dp,
    nth_error (orbit_orb_of a orbit) j0 = Some P /\
    nth_error (orbit_orb_of a orbit) i0 = Some A /\
    orbit_analysis a orbit = Ok (per, (v3x P - v3x A) / 2, dp).
Proof.
  intros Hmin Hmax.
  set (orb := orbit_orb_of a orbit).
  assert (Hl : length orb = length orbit) by (unfold orb, orbit_orb_of; apply length_map).
  pose proof (minima_valid orbit st_pr) as Vmin. rewrite Hmin in Vmin.
  pose proof (maxima_valid orbit st_pr) as Vmax. rewrite Hmax in Vmax.
  inversion Vmin as [|? ? Hj _]; subst. inversion Vmax as [|? ? Hi Vmax']; subst.
  inversion Vmax' as [|? ? Hi1 _]; subst.
  destruct (nth_error orb j0) as [P|] eqn:EP; [| apply nth_error_None in EP; lia].
  destruct (nth_error orb i0) as [A|] eqn:EA; [| apply nth_error_None in EA; lia].
  destruct (fancy_valid (map v3x orb) (j0 :: js)) as [xp [Hxp Hxp2]].
  { rewrite length_map, Hl. exact Vmin. }
  destruct (fancy_valid (map v3x orb) (i0 :: i1 :: is)) as [xa [Hxa Hxa2]].
  { rewrite length_map, Hl. exact Vmax. }
  inversion Hxp2 as [|? p ? ? Hp _]; subst. inversion Hxa2 as [|? q ? ? Hq _]; subst.
  rewrite nth_error_map, EP in Hp. injection Hp as <-.
  rewrite nth_error_map, EA in Hq. injection Hq as <-.
  destruct (fancy_valid (map st_t orbit) _ (Forall_valid_map _ _ _ Vmax)) as [ts [Ht Ht2]].
  inversion Ht2 as [|? t0 ? ts1 _ Ht2']; subst.
  inversion Ht2' as [|? t1 ? ts2 _ _]; subst.
  destruct (fancy_valid (map (fun p => atan2 (v3y p) (v3x p)) orb) (i0 :: i1 :: is))
    as [ps [Hp Hp2]].
  { rewrite length_map, Hl. exact Vmax. }
  inversion Hp2 as [|? p0 ? ps1 _ Hp2']; subst.
  inversion Hp2' as [|? p1 ? ps2 _ _]; subst.
  exists P, A, (t1 - t0), (p1 + PI).
  split; [reflexivity|]. split; [reflexivity|].
  unfold orbit_analysis. fold orb. rewrite Hmin, Hmax.
  unfold simul_period_of, simul_sma_of, deltaphase_of.
  rewrite Ht, Hxp, Hxa, Hp. reflexivity.
Qed.

(** Half the signed [x] difference of two points is half their Euclidean
    distance exactly when they share [y] and [z] and the first has the
    larger [x]. *)
Lemma half_x_difference_iff (P A : vec3) :
  (v3x P - v3x A) / 2 = sqrt (dot3 (vsub3 P A) (vsub3 P A)) / 2 <->
  v3y P = v3y A /\ v3z P = v3z A /\ v3x A <= v3x P.
Proof.
  destruct P as [px py pz], A as [ax ay az]. cbv [dot3 vsub3 v3x v3y v3z].
  set (S := (px - ax) * (px - ax) + (py - ay) * (py - ay) + (pz - az) * (pz - az)).
  assert (HS : 0 <= S).
  { unfold S. repeat apply Rplus_le_le_0_compat; apply Rle_0_sqr. }
  split.
  - intros H.
    assert (Hd : sqrt S = px - ax) by lra.
    pose proof (sqrt_pos S) as Hpos.
    pose proof (sqrt_sqrt S HS) as Hsq. rewrite Hd in Hsq. unfold S in Hsq.
    pose proof (Rle_0_sqr (py - ay)). pose proof (Rle_0_sqr (pz - az)). unfold Rsqr in *.
    assert (py = ay) by nra. assert (pz = az) by nra. lra.
  - intros (Hy & Hz & Hx). f_equal. symmetry. apply sqrt_eq_of_sq; [lra|].
    unfold S. rewrite Hy, Hz. ring.
Qed.

(** Claim C7 (as amended): once line 218 succeeds (at least two maxima of
    [p_r]), the semi-major axis the analysis returns is half the
    difference of the orbital-plane [x] coordinates of the first minimum
    [P] and the first maximum [A] of [p_r] (line 219), and that equals half
    the Euclidean distance between [P] and [A] if and only if they share
    [y] and [z] and [P] has the larger [x]. *)
Theorem sma_half_x_difference (a : R) (orbit : list state6)
    (j0 i0 i1 : nat) (js is : list nat) :
  minima (map st_pr orbit) = j0 :: js ->
  maxima (map st_pr orbit) = i0 :: i1 :: is ->
  exists P A per dp,
    nth_error (orbit_orb_of a orbit) j0 = Some P /\
    nth_error (orbit_orb_of a orbit) i0 = Some A /\
    orbit_analysis a orbit = Ok (per, (v3x P - v3x A) / 2, dp) /\
    ((v3x P - v3x A) / 2 = sqrt (dot3 (vsub3 P A) (vsub3 P A)) / 2 <->
     v3y P = v3y A /\ v3z P = v3z A /\ v3x A <= v3x P).
Proof.
  intros Hmin Hmax.
  destruct (orbit_analysis_sma a orbit j0 i0 i1 js is Hmin Hmax)
    as (P & A & per & dp & HP & HA & Hres).
  exists P, A, per, dp. split; [exact HP|]. split; [exact HA|].
  split; [exact Hres|]. apply half_x_difference_iff.
Qed.

Lemma orbit_min_then_max_extrema :
  minima (map st_pr orbit_min_then_max) = [1%nat; 4%nat] /\
  maxima (map st_pr orbit_min_then_max) = [3%nat; 5%nat].
Proof. unfold orbit_min_then_max. split; eval_extrema. Qed.

Lemma orbit_max_then_min_extrema :
  minima (map st_pr orbit_max_then_min) = [1%nat; 4%nat] /\
  maxima (map st_pr orbit_max_then_min) = [3%nat; 5%nat].
Proof. unfold orbit_max_then_min. split; eval_extrema. Qed.

Lemma sma_half_x_difference_witness :
  minima (map st_pr orbit_min_then_max) = [1%nat; 4%nat] /\
  maxima (map st_pr orbit_min_then_max) = [3%nat; 5%nat] /\
  exists P A per dp,
    nth_error (orbit_orb_of a_spin orbit_min_then_max) 1%nat = Some P /\
    nth_error (orbit_orb_of a_spin orbit_min_then_max) 3%nat = Some A /\
    orbit_analysis a_spin orbit_min_then_max = Ok (per, (v3x P - v3x A) / 2, dp) /\
    ((v3x P - v3x A) / 2 = sqrt (dot3 (vsub3 P A) (vsub3 P A)) / 2 <->
     v3y P = v3y A /\ v3z P = v3z A /\ v3x A <= v3x P).
Proof.
  destruct orbit_min_then_max_extrema as [Hmin Hmax].
  split; [exact Hmin|]. split; [exact Hmax|].
  exact (sma_half_x_difference a_spin orbit_min_then_max 1%nat 3%nat 5%nat [4%nat] []
           Hmin Hmax).
Defined.

(** Claim C7, refuted: on the two trajectories above, both with two maxima
    so that the whole analysis of lines 218-221 succeeds, the first minimum
    and the first maximum of [p_r] sit at the same two distinct points, in
    opposite roles, so the returned [simul_sma] changes sign between them
    while the half distance does not: it cannot be the half distance on
    both. *)
Lemma sma_not_half_distance :
  ~ (forall (orbit : list state6) (j0 i0 : nat) (js is : list nat) (P A : vec3)
            (per sma dp : R),
       minima (map st_pr orbit) = j0 :: js ->
       maxima (map st_pr orbit) = i0 :: is ->
       nth_error (orbit_orb_of a_spin orbit) j0 = Some P ->
       nth_error (orbit_orb_of a_spin orbit) i0 = Some A ->
       orbit_analysis a_spin orbit = Ok (per, sma, dp) ->
       sma = sqrt (dot3 (vsub3 P A) (vsub3 P A)) / 2).
Proof.
  intros H.
  set (sP := S6 0 10 (PI / 2) 0 0 0). set (sA := S6 0 10 (PI / 2) PI 0 0).
  set (u := orb_row a_spin sP). set (w := orb_row a_spin sA).
  destruct orbit_min_then_max_extrema as [Hmin1 Hmax1].
  destruct orbit_max_then_min_extrema as [Hmin2 Hmax2].
  destruct (orbit_analysis_sma a_spin orbit_min_then_max 1%nat 3%nat 5%nat [4%nat] []
              Hmin1 Hmax1) as (P1 & A1 & per1 & dp1 & HP1 & HA1 & Hr1).
  destruct (orbit_analysis_sma a_spin orbit_max_then_min 1%nat 3%nat 5%nat [4%nat] []
              Hmin2 Hmax2) as (P2 & A2 & per2 & dp2 & HP2 & HA2 & Hr2).
  assert (EP1 : P1 = u) by (injection HP1 as <-; reflexivity).
  assert (EA1 : A1 = w) by (injection HA1 as <-; reflexivity).
  assert (EP2 : P2 = w) by (injection HP2 as <-; reflexivity).
  assert (EA2 : A2 = u) by (injection HA2 as <-; reflexivity).
  subst P1 A1 P2 A2.
  pose proof (H orbit_min_then_max 1%nat 3%nat [4%nat] [5%nat] u w per1 _ dp1
                Hmin1 Hmax1 HP1 HA1 Hr1) as H1.
  pose proof (H orbit_max_then_min 1%nat 3%nat [4%nat] [5%nat] w u per2 _ dp2
                Hmin2 Hmax2 HP2 HA2 Hr2) as H2.
  assert (Hsym : dot3 (vsub3 w u) (vsub3 w u) = dot3 (vsub3 u w) (vsub3 u w)).
  { clearbody u w. destruct u, w. cbv [dot3 vsub3 v3x v3y v3z]. ring. }
  rewrite Hsym in H2.
  assert (Hd : sqrt (dot3 (vsub3 u w) (vsub3 u w)) = 0) by lra.
  apply sqrt_eq_0 in Hd;
    [| clearbody u w; destruct u, w; cbv [dot3 vsub3 v3x v3y v3z];
       repeat apply Rplus_le_le_0_compat; apply Rle_0_sqr].
  assert (Huw : u = w).
  { clearbody u w. clear H1 H2 Hsym HP1 HA1 HP2 HA2 Hr1 Hr2.
    destruct u as [ux uy uz], w as [wx wy wz]. cbv [dot3 vsub3 v3x v3y v3z] in Hd.
    pose proof (Rle_0_sqr (ux - wx)). pose proof (Rle_0_sqr (uy - wy)).
    pose proof (Rle_0_sqr (uz - wz)). unfold Rsqr in *.
    assert (ux = wx) by nra. assert (uy = wy) by nra. assert (uz = wz) by nra.
    subst. reflexivity. }
  apply orb_row_inj in Huw. unfold sP, sA, bl_to_xyz in Huw. cbn [st_r st_th st_ph] in Huw.
  injection Huw as Hx _.
  rewrite sin_PI2, cos_0, cos_PI in Hx.
  assert (HS : 0 < sqrt (10 * (10 * 1) + a_spin * a_spin)).
  { apply sqrt_lt_R0. unfold a_spin. nra. }
  lra.
Qed.

(** ** The grid scan *)

Lemma fold_Rmin_zeros (l : list R) :
  (forall x, In x l -> x = 0) -> fold_left Rmin l 0 = 0.
Proof.
  induction l as [|x l IH]; intros H; cbn [fold_left]; [reflexivity|].
  rewrite (H x) by (left; reflexivity).
  rewrite Rmin_left by lra. apply IH. intros y Hy. apply H. right. exact Hy.
Qed.

Lemma np_min2_zeros (n m : nat) :
  (0 < n)%nat -> (0 < m)%nat -> np_min2 (zeros2 n m) = Ok 0.
Proof.
  intros Hn Hm. destruct n as [|n]; [lia|]. destruct m as [|m]; [lia|].
  unfold np_min2, zeros2. cbn [repeat concat app].
  f_equal. apply fold_Rmin_zeros. intros x Hx.
  apply in_app_or in Hx as [Hx | Hx].
  - eapply repeat_spec; exact Hx.
  - apply in_concat in Hx as (l & Hl & Hx).
    apply repeat_spec in Hl. subst l. exact (repeat_spec (S m) 0 x Hx).
Qed.

Lemma scan_log_prefix md xspace yspace cs g log :
  exists rest, fst (scan md xspace yspace cs g log) = log ++ rest.
Proof.
  revert g log. induction cs as [|[i j] cs IH]; intros g log; cbn [scan].
  - exists []. rewrite app_nil_r. reflexivity.
  - destruct (getitem xspace i) as [x|e]; [|exists []; rewrite app_nil_r; reflexivity].
    destruct (getitem yspace j) as [y|e]; [|exists []; rewrite app_nil_r; reflexivity].
    destruct (md x y) as [printed d].
    destruct (grid_set g j i d) as [g'|e].
    + destruct (IH g' ((log ++ map OMat printed) ++ [OIJ i j])) as [rest Hr].
      rewrite Hr. exists ((map OMat printed ++ [OIJ i j]) ++ rest).
      rewrite !app_assoc. reflexivity.
    + exists (map OMat printed). reflexivity.
Qed.

(** Claim C10: whatever the integrator, the target and the spin, the first
    line the grid scan prints is ['Closest Ray: '] with the value [0], the
    minimum of the freshly zeroed [min_dist], before any cell is computed. *)
Theorem closest_ray_printed_zero (odeint : integrator) (peri_obs : vec3) (a : R) :
  np_min2 (zeros2 ny nx) = Ok 0 /\
  exists rest, fst (grid_scan odeint peri_obs a) = OClosest 0 :: rest.
Proof.
  assert (H0 : np_min2 (zeros2 ny nx) = Ok 0)
    by (apply np_min2_zeros; unfold nx, ny; lia).
  split; [exact H0|].
  unfold grid_scan. rewrite H0.
  apply scan_log_prefix.
Qed.


(** * Further properties of the script *)

(** ** Frames *)

Lemma matmul3_assoc (m n p : mat3) :
  matmul3 (matmul3 m n) p = matmul3 m (matmul3 n p).
Proof. destruct m, n, p. cbv [matmul3 m00 m01 m02 m10 m11 m12 m20 m21 m22]. f_equal; ring. Qed.

Lemma transpose3_matmul (m n : mat3) :
  transpose3 (matmul3 m n) = matmul3 (transpose3 n) (transpose3 m).
Proof. destruct m, n. cbv [transpose3 matmul3 m00 m01 m02 m10 m11 m12 m20 m21 m22]. f_equal; ring. Qed.

Lemma transpose3_involutive (m : mat3) : transpose3 (transpose3 m) = m.
Proof. destruct m. reflexivity. Qed.

Lemma matmul3_I3_l (m : mat3) : matmul3 I3 m = m.
Proof. destruct m. cbv [matmul3 I3 m00 m01 m02 m10 m11 m12 m20 m21 m22]. f_equal; ring. Qed.

Lemma matvec3_matmul (m n : mat3) (v : vec3) :
  matvec3 (matmul3 m n) v = matvec3 m (matvec3 n v).
Proof. destruct m, n, v. cbv [matvec3 matmul3 m00 m01 m02 m10 m11 m12 m20 m21 m22 v3x v3y v3z]. f_equal; ring. Qed.

Lemma matvec3_I3 (v : vec3) : matvec3 I3 v = v.
Proof. destruct v. cbv [matvec3 I3 m00 m01 m02 m10 m11 m12 m20 m21 m22 v3x v3y v3z]. f_equal; ring. Qed.

(** Orthogonality, [m^T m = I], is kept by products. *)
Lemma orth_matmul (m n : mat3) :
  matmul3 (transpose3 m) m = I3 -> matmul3 (transpose3 n) n = I3 ->
  matmul3 (transpose3 (matmul3 m n)) (matmul3 m n) = I3.
Proof.
  intros Hm Hn. rewrite transpose3_matmul, matmul3_assoc.
  rewrite <- (matmul3_assoc (transpose3 m) m n), Hm, matmul3_I3_l. exact Hn.
Qed.

Lemma orth_matmul_r (m n : mat3) :
  matmul3 m (transpose3 m) = I3 -> matmul3 n (transpose3 n) = I3 ->
  matmul3 (matmul3 m n) (transpose3 (matmul3 m n)) = I3.
Proof.
  intros Hm Hn. rewrite transpose3_matmul, matmul3_assoc.
  rewrite <- (matmul3_assoc n (transpose3 n) (transpose3 m)), Hn, matmul3_I3_l. exact Hm.
Qed.

Ltac orth_rot :=
  cbv [matmul3 transpose3 I3 m00 m01 m02 m10 m11 m12 m20 m21 m22];
  f_equal;
  match goal with
  | |- context [cos ?x] => pose proof (sin_cos_sq x); nra
  | |- _ => ring
  end.

Lemma R_arg_orth :
  matmul3 (transpose3 R_arg) R_arg = I3 /\ matmul3 R_arg (transpose3 R_arg) = I3.
Proof. unfold R_arg. split; orth_rot. Qed.

Lemma R_incl_orth :
  matmul3 (transpose3 R_incl) R_incl = I3 /\ matmul3 R_incl (transpose3 R_incl) = I3.
Proof. unfold R_incl. split; orth_rot. Qed.

Lemma R_long_orth :
  matmul3 (transpose3 R_long) R_long = I3 /\ matmul3 R_long (transpose3 R_long) = I3.
Proof. unfold R_long. split; orth_rot. Qed.

Lemma R_spin_phi_orth :
  matmul3 (transpose3 R_spin_phi) R_spin_phi = I3 /\
  matmul3 R_spin_phi (transpose3 R_spin_phi) = I3.
Proof. unfold R_spin_phi. split; orth_rot. Qed.

Lemma R_spin_theta_orth :
  matmul3 (transpose3 R_spin_theta) R_spin_theta = I3 /\
  matmul3 R_spin_theta (transpose3 R_spin_theta) = I3.
Proof. unfold R_spin_theta. split; orth_rot. Qed.

Lemma obs_from_orb_orth :
  matmul3 (transpose3 obs_from_orb) obs_from_orb = I3 /\
  matmul3 obs_from_orb (transpose3 obs_from_orb) = I3.
Proof.
  destruct R_arg_orth, R_incl_orth, R_long_orth. unfold obs_from_orb.
  split; repeat apply orth_matmul || apply orth_matmul_r; assumption.
Qed.

Lemma bh_from_obs_orth :
  matmul3 (transpose3 bh_from_obs) bh_from_obs = I3 /\
  matmul3 bh_from_obs (transpose3 bh_from_obs) = I3.
Proof.
  destruct R_spin_phi_orth, R_spin_theta_orth. unfold bh_from_obs.
  split; repeat apply orth_matmul || apply orth_matmul_r; assumption.
Qed.

(** Lines 89 and 108: the frame changes back, [orb_from_obs] and
    [obs_from_bh], are the transposes of the frame changes and also their
    inverses, on both sides: all four matrices are orthogonal. *)
Theorem frame_transposes_are_inverses :
  matmul3 orb_from_obs obs_from_orb = I3 /\ matmul3 obs_from_orb orb_from_obs = I3 /\
  matmul3 obs_from_bh bh_from_obs = I3 /\ matmul3 bh_from_obs obs_from_bh = I3.
Proof.
  destruct obs_from_orb_orth, bh_from_obs_orth.
  unfold orb_from_obs, obs_from_bh. repeat split; assumption.
Qed.

Lemma dot3_matvec3_transpose (m : mat3) (u w : vec3) :
  dot3 (matvec3 m u) w = dot3 u (matvec3 (transpose3 m) w).
Proof. destruct m, u, w. cbv [dot3 matvec3 transpose3 m00 m01 m02 m10 m11 m12 m20 m21 m22 v3x v3y v3z]. ring. Qed.

Lemma dot3_orth (m : mat3) (u v : vec3) :
  matmul3 (transpose3 m) m = I3 -> dot3 (matvec3 m u) (matvec3 m v) = dot3 u v.
Proof.
  intros H. rewrite dot3_matvec3_transpose, <- matvec3_matmul, H, matvec3_I3. reflexivity.
Qed.

Lemma vsub3_matvec3 (m : mat3) (u v : vec3) :
  vsub3 (matvec3 m u) (matvec3 m v) = matvec3 m (vsub3 u v).
Proof. destruct m, u, v. cbv [vsub3 matvec3 m00 m01 m02 m10 m11 m12 m20 m21 m22 v3x v3y v3z]. f_equal; ring. Qed.

Lemma orb_row_orth :
  matmul3 (transpose3 (matmul3 orb_from_obs obs_from_bh)) (matmul3 orb_from_obs obs_from_bh) = I3.
Proof.
  destruct obs_from_orb_orth as [_ H1]. destruct bh_from_obs_orth as [_ H2].
  apply orth_matmul; unfold orb_from_obs, obs_from_bh; rewrite transpose3_involutive; assumption.
Qed.

(** Lines 195-207: the rows of [orbit_orb] are the rows of [orbit_xyz]
    moved by a rotation (or reflection): Euclidean lengths and the distance
    between any two samples are the same in the black-hole frame and in the
    orbital plane. *)
Theorem orbit_orb_isometry (a : R) (s s' : state6) :
  let p := bl_to_xyz a (st_r s) (st_th s) (st_ph s) in
  let p' := bl_to_xyz a (st_r s') (st_th s') (st_ph s') in
  dot3 (orb_row a s) (orb_row a s) = dot3 p p /\
  dot3 (vsub3 (orb_row a s) (orb_row a s')) (vsub3 (orb_row a s) (orb_row a s'))
  = dot3 (vsub3 p p') (vsub3 p p').
Proof.
  cbv zeta. unfold orb_row. rewrite <- !matvec3_matmul.
  rewrite vsub3_matvec3, !dot3_orth by exact orb_row_orth. split; reflexivity.
Qed.


(** ** Cartesian -> Boyer-Lindquist -> Cartesian *)

Lemma xyz_to_bl_r_spec (a x y z : R) :
  0 < x * x + y * y -> (z <> 0 \/ a * a < x * x + y * y) ->
  let r := xyz_to_bl_r a (V3 x y z) in
  0 < r /\ z * z <= r * r /\
  (r * r + a * a) * (r * r - z * z) = (x * x + y * y) * (r * r).
Proof.
  intros Hxy Hz. cbv zeta. unfold xyz_to_bl_r. cbn [v3x v3y v3z].
  set (A := a * a - x * x - y * y - z * z).
  assert (HD2 : sqrt (A * A + 4 * a * a * z * z) * sqrt (A * A + 4 * a * a * z * z)
                = A * A + 4 * a * a * z * z) by (apply sqrt_sqrt; nra).
  pose proof (sqrt_pos (A * A + 4 * a * a * z * z)) as HD0.
  set (D := sqrt (A * A + 4 * a * a * z * z)) in *.
  set (u := -0.5 * A + 0.5 * D).
  assert (HDA : - A <= D) by nra.
  assert (Hu : 0 < u).
  { unfold u. destruct Hz as [Hz | Hz].
    - destruct (Req_dec a 0) as [Ha | Ha].
      + assert (A < 0) by (unfold A; subst a; nra). lra.
      + assert (Haz : a * z <> 0) by (apply Rmult_integral_contrapositive_currified; assumption).
        pose proof (Rsqr_pos_lt _ Haz) as Hsq. unfold Rsqr in Hsq.
        assert (0 < a * a * z * z) by (replace (a * a * z * z) with (a * z * (a * z)) by ring; exact Hsq).
        nra.
    - assert (A < 0) by (unfold A; nra). lra. }
  assert (Hquad : u * u + A * u - a * a * z * z = 0) by (unfold u; nra).
  assert (Hzu : z * z <= u).
  { destruct (Rle_dec (z * z) u) as [H|H]; [exact H|exfalso].
    apply Rnot_le_lt in H. unfold u in H.
    assert (Hlt : D < A + 2 * (z * z)) by lra.
    assert (D * D < (A + 2 * (z * z)) * (A + 2 * (z * z))) by nra.
    assert (0 <= z * z * (x * x + y * y)) by nra.
    unfold A in *. nra. }
  assert (Hr2 : sqrt u * sqrt u = u) by (apply sqrt_sqrt; lra).
  rewrite Hr2. split; [apply sqrt_lt_R0; exact Hu|]. split; [exact Hzu|].
  transitivity (u * u + A * u - a * a * z * z + (x * x + y * y) * u);
    [unfold A; ring | rewrite Hquad; ring].
Qed.


Lemma xyz_bl_xyz_roundtrip_aux (a : R) (p : vec3) :
  0 < v3x p * v3x p + v3y p * v3y p ->
  (v3z p <> 0 \/ a * a < v3x p * v3x p + v3y p * v3y p) ->
  bl_to_xyz a (xyz_to_bl_r a p) (xyz_to_bl_theta a p) (xyz_to_bl_phi p) = p.
Proof.
  destruct p as [x y z]. cbn [v3x v3y v3z]. intros Hxy Hz.
  destruct (xyz_to_bl_r_spec a x y z Hxy Hz) as (Hr & Hzr & Hk).
  unfold bl_to_xyz, xyz_to_bl_theta, xyz_to_bl_phi, arccos. cbn [v3x v3y v3z].
  set (r := xyz_to_bl_r a (V3 x y z)) in *.
  assert (Hw : -1 <= z / r <= 1).
  { assert (Hb : - r <= z <= r) by nra.
    split; [apply (Rmult_le_reg_r r); [exact Hr|] | apply (Rmult_le_reg_r r); [exact Hr|]];
      unfold Rdiv; rewrite Rmult_assoc, Rinv_l by lra; lra. }
  rewrite cos_acos, sin_acos by exact Hw.
  destruct (atan2_cos_sin x y Hxy) as [Hc Hs]. rewrite Hc, Hs.
  assert (Hs2 : sqrt (r ^ 2 + a * a) * sqrt (1 - (z / r)²) = sqrt (x * x + y * y)).
  { assert (H1 : 0 <= 1 - (z / r)²).
    { unfold Rsqr. destruct Hw. nra. }
    rewrite <- sqrt_mult by (nra || exact H1).
    f_equal. unfold Rsqr. apply (Rmult_eq_reg_r (r * r)); [|nra].
    rewrite <- Hk. field. lra. }
  assert (Hq : 0 < sqrt (x * x + y * y)) by (apply sqrt_lt_R0; exact Hxy).
  f_equal.
  - rewrite Hs2. field. lra.
  - rewrite Hs2. field. lra.
  - field. lra.
Qed.

(** The three [(r, theta, phi)] of lines 135-140, sent back through lines
    195-199, give the Cartesian point they were computed from: the check
    the script leaves commented at lines 142-145. The point must be off the
    spin axis, and, in the equatorial plane, outside the ring [x^2 + y^2 <=
    a^2] where [r = 0]. *)
Theorem xyz_bl_xyz_roundtrip (a : R) (p : vec3) :
  0 < v3x p * v3x p + v3y p * v3y p ->
  (v3z p <> 0 \/ a * a < v3x p * v3x p + v3y p * v3y p) ->
  bl_to_xyz a (xyz_to_bl_r a p) (xyz_to_bl_theta a p) (xyz_to_bl_phi p) = p.
Proof. exact (xyz_bl_xyz_roundtrip_aux a p). Qed.

Lemma xyz_bl_xyz_roundtrip_witness :
  0 < 1 * 1 + 0 * 0 /\ (0 <> 0 \/ 0 * 0 < 1 * 1 + 0 * 0) /\
  bl_to_xyz 0 (xyz_to_bl_r 0 (V3 1 0 0)) (xyz_to_bl_theta 0 (V3 1 0 0))
    (xyz_to_bl_phi (V3 1 0 0)) = V3 1 0 0.
Proof.
  assert (H1 : 0 < 1 * 1 + 0 * 0) by lra.
  assert (H2 : 0 <> 0 \/ 0 * 0 < 1 * 1 + 0 * 0) by (right; lra).
  split; [exact H1|]. split; [exact H2|].
  exact (xyz_bl_xyz_roundtrip 0 (V3 1 0 0) H1 H2).
Defined.


(** ** The direction matrix is the Jacobian of lines 195-199 *)

Lemma dlim_sqrt_sq (c r : R) :
  0 < r ^ 2 + c ->
  derivable_pt_lim (fun r' => sqrt (r' ^ 2 + c)) r (r / sqrt (r ^ 2 + c)).
Proof.
  intros H.
  assert (Hin : derivable_pt_lim (fun r' => r' ^ 2 + c) r (2 * r)).
  { apply (derivable_pt_lim_ext (fun r' => r' ^ 2 + fct_cte c r')); [reflexivity|].
    replace (2 * r) with (INR 2 * r ^ Nat.pred 2 + 0) by (cbn; ring).
    apply (derivable_pt_lim_plus (fun y => y ^ 2) (fct_cte c)).
    - apply derivable_pt_lim_pow.
    - apply derivable_pt_lim_const. }
  pose proof (derivable_pt_lim_comp _ sqrt r _ _ Hin (derivable_pt_lim_sqrt _ H)) as Hc.
  assert (Hs : 0 < sqrt (r ^ 2 + c)) by (apply sqrt_lt_R0; exact H).
  replace (r / sqrt (r ^ 2 + c)) with (/ (2 * sqrt (r ^ 2 + c)) * (2 * r))
    by (field; lra).
  exact Hc.
Qed.

Lemma dlim_scal_l (f : R -> R) (x l k : R) :
  derivable_pt_lim f x l -> derivable_pt_lim (fun y => k * f y) x (k * l).
Proof. intros H. exact (derivable_pt_lim_scal f k x l H). Qed.

Lemma dlim_const (k x : R) : derivable_pt_lim (fun _ => k) x 0.
Proof. exact (derivable_pt_lim_const k x). Qed.

Lemma tan_shift_down (t : R) :
  sin t <> 0 -> tan (t - PI / 2) = - (cos t / sin t).
Proof.
  intros H. unfold tan. rewrite sin_minus, cos_minus, sin_PI2, cos_PI2.
  field_simplify_eq; [ring | lra].
Qed.

Ltac bl_cbv := cbv [bl_to_xyz dir_mat v3x v3y v3z m00 m01 m02 m10 m11 m12 m20 m21 m22].

Lemma bl_jacobian_dir_mat (a r theta phi : R) :
  0 < r -> sin theta <> 0 ->
  let p := bl_to_xyz a r theta phi in
  is_bl_jacobian a r theta phi (dir_mat (v3x p) (v3y p) (v3z p) r theta a).
Proof.
  intros Hr Hs. cbv zeta.
  assert (HS : 0 < r ^ 2 + a * a) by nra.
  pose proof (sqrt_lt_R0 _ HS) as HSq.
  assert (HSS : sqrt (r ^ 2 + a * a) * sqrt (r ^ 2 + a * a) = r * r + a * a)
    by (rewrite sqrt_sqrt by lra; ring).
  set (S := sqrt (r ^ 2 + a * a)) in *.
  assert (Htan : tan (theta - PI / 2) = - (cos theta / sin theta)) by (apply tan_shift_down; exact Hs).
  unfold is_bl_jacobian. bl_cbv. fold S. rewrite Htan.
  repeat split.
  - apply (derivable_pt_lim_ext (fun r' => sqrt (r' ^ 2 + a * a) * (sin theta * cos phi)));
      [intros; ring|].
    replace (r * (S * sin theta * cos phi) / (r * r + a * a))
      with (r / S * (sin theta * cos phi)) by (rewrite <- HSS; field; lra).
    apply derivable_pt_lim_scal_right, dlim_sqrt_sq; exact HS.
  - apply (derivable_pt_lim_ext (fun t => S * (sin t * cos phi))); [intros; ring|].
    replace (- (S * sin theta * cos phi) * - (cos theta / sin theta))
      with (S * (cos theta * cos phi)) by (field; exact Hs).
    apply dlim_scal_l, derivable_pt_lim_scal_right, derivable_pt_lim_sin.
  - apply (derivable_pt_lim_ext (fun p => (S * sin theta) * cos p)); [intros; ring|].
    replace (- (S * sin theta * sin phi)) with ((S * sin theta) * - sin phi) by ring.
    apply dlim_scal_l, derivable_pt_lim_cos.
  - apply (derivable_pt_lim_ext (fun r' => sqrt (r' ^ 2 + a * a) * (sin theta * sin phi)));
      [intros; ring|].
    replace (r * (S * sin theta * sin phi) / (r * r + a * a))
      with (r / S * (sin theta * sin phi)) by (rewrite <- HSS; field; lra).
    apply derivable_pt_lim_scal_right, dlim_sqrt_sq; exact HS.
  - apply (derivable_pt_lim_ext (fun t => S * (sin t * sin phi))); [intros; ring|].
    replace (- (S * sin theta * sin phi) * - (cos theta / sin theta))
      with (S * (cos theta * sin phi)) by (field; exact Hs).
    apply dlim_scal_l, derivable_pt_lim_scal_right, derivable_pt_lim_sin.
  - apply (derivable_pt_lim_ext (fun p => (S * sin theta) * sin p)); [intros; ring|].
    apply dlim_scal_l, derivable_pt_lim_sin.
  - apply (derivable_pt_lim_ext (fun r' => r' * cos theta)); [intros; ring|].
    replace (r * cos theta / r) with (1 * cos theta) by (field; lra).
    apply derivable_pt_lim_scal_right, derivable_pt_lim_id.
  - apply (derivable_pt_lim_ext (fun t => r * cos t)); [intros; ring|].
    replace (- r * sin theta) with (r * - sin theta) by ring.
    apply dlim_scal_l, derivable_pt_lim_cos.
  - apply dlim_const.
Qed.

(** Lines 157-161 (and 247-251): the matrix [mat], filled from a point
    [(r0, theta0, phi0)] and its Cartesian image [(x0, y0, z0)], is the
    Jacobian of the map [(r, theta, phi) |-> (x, y, z)] of lines 195-199 at
    that point, away from [r = 0] and the spin axis. *)
Theorem dir_mat_is_jacobian (a r theta phi : R) :
  0 < r -> sin theta <> 0 ->
  let p := bl_to_xyz a r theta phi in
  is_bl_jacobian a r theta phi (dir_mat (v3x p) (v3y p) (v3z p) r theta a).
Proof. exact (bl_jacobian_dir_mat a r theta phi). Qed.

Lemma dir_mat_is_jacobian_witness :
  0 < 1 /\ sin (PI / 2) <> 0 /\
  is_bl_jacobian 0 1 (PI / 2) 0
    (dir_mat (v3x (bl_to_xyz 0 1 (PI / 2) 0)) (v3y (bl_to_xyz 0 1 (PI / 2) 0))
             (v3z (bl_to_xyz 0 1 (PI / 2) 0)) 1 (PI / 2) 0).
Proof.
  assert (H1 : 0 < 1) by lra.
  assert (H2 : sin (PI / 2) <> 0) by (rewrite sin_PI2; lra).
  split; [exact H1|]. split; [exact H2|].
  exact (dir_mat_is_jacobian 0 1 (PI / 2) 0 H1 H2).
Defined.


(** ** The coordinate velocity [_u_dt] (lines 153-164) *)

Lemma solve3_sound (m : mat3) (v s : vec3) :
  solve3 m v = Some s -> matvec3 m s = v.
Proof.
  unfold solve3. destruct (Req_EM_T (det3 m) 0) as [_|Hd]; [discriminate|].
  intros H. injection H as <-. destruct m, v.
  cbv [matvec3 det3 m00 m01 m02 m10 m11 m12 m20 m21 m22 v3x v3y v3z] in *.
  f_equal; field; exact Hd.
Qed.

(** The start point is on the spin axis exactly when [sin theta0 = 0]. *)
Lemma bl_off_axis (a r theta phi : R) :
  let p := bl_to_xyz a r theta phi in
  0 < v3x p * v3x p + v3y p * v3y p -> sin theta <> 0.
Proof.
  cbv zeta. unfold bl_to_xyz. cbn [v3x v3y]. intros H E. rewrite E in H. lra.
Qed.

(** Lines 135-164: for a start point off the spin axis (and outside the
    equatorial ring [x^2 + y^2 <= a^2]), when [np.linalg.solve] succeeds,
    [_u_dt] has time component 1, and its spatial part is the coordinate
    velocity [(dr/dt, dtheta/dt, dphi/dt)]: pushed through the Jacobian of
    [(r, theta, phi) |-> (x, y, z)] at [(r0, theta0, phi0)] it gives back the
    Cartesian velocity. *)
Theorem u_dt_coordinate_velocity (a : R) (xyz0 v : vec3) (u : vec4) :
  0 < v3x xyz0 * v3x xyz0 + v3y xyz0 * v3y xyz0 ->
  (v3z xyz0 <> 0 \/ a * a < v3x xyz0 * v3x xyz0 + v3y xyz0 * v3y xyz0) ->
  u_dt_of a xyz0 v = Some u ->
  v4_0 u = 1 /\
  exists J, is_bl_jacobian a (xyz_to_bl_r a xyz0) (xyz_to_bl_theta a xyz0)
                          (xyz_to_bl_phi xyz0) J /\
            matvec3 J (V3 (v4_1 u) (v4_2 u) (v4_3 u)) = v.
Proof.
  intros Hxy Hz Hu.
  pose proof (xyz_bl_xyz_roundtrip_aux a xyz0 Hxy Hz) as Hrt.
  destruct xyz0 as [x y z]. cbn [v3x v3y v3z] in Hxy, Hz.
  destruct (xyz_to_bl_r_spec a x y z Hxy Hz) as (Hr & _ & _).
  set (r0 := xyz_to_bl_r a (V3 x y z)) in *.
  set (theta0 := xyz_to_bl_theta a (V3 x y z)) in *.
  set (phi0 := xyz_to_bl_phi (V3 x y z)) in *.
  unfold u_dt_of in Hu. cbn [v3x v3y v3z] in Hu. fold r0 theta0 in Hu.
  destruct (solve3 (dir_mat x y z r0 theta0 a) v) as [s|] eqn:Es; [|discriminate].
  injection Hu as <-. cbn [v4_0 v4_1 v4_2 v4_3].
  split; [reflexivity|].
  exists (dir_mat x y z r0 theta0 a). split.
  - assert (Hs : sin theta0 <> 0).
    { apply (bl_off_axis a r0 theta0 phi0). rewrite Hrt. exact Hxy. }
    pose proof (bl_jacobian_dir_mat a r0 theta0 phi0 Hr Hs) as HJ.
    cbv zeta in HJ. rewrite Hrt in HJ. exact HJ.
  - destruct s. apply solve3_sound. exact Es.
Qed.

Lemma u_dt_example : u_dt_of 0 (V3 1 0 0) (V3 1 2 3) = Some (V4 1 1 (-3) 2).
Proof.
  assert (Hr : xyz_to_bl_r 0 (V3 1 0 0) = 1).
  { unfold xyz_to_bl_r. cbn [v3x v3y v3z].
    assert (Hi : sqrt ((0 * 0 - 1 * 1 - 0 * 0 - 0 * 0) * (0 * 0 - 1 * 1 - 0 * 0 - 0 * 0)
                       + 4 * 0 * 0 * 0 * 0) = 1) by (apply sqrt_eq_of_sq; lra).
    rewrite Hi. apply sqrt_eq_of_sq; lra. }
  assert (Ht : xyz_to_bl_theta 0 (V3 1 0 0) = PI / 2).
  { unfold xyz_to_bl_theta, arccos. rewrite Hr. cbn [v3z].
    replace (0 / 1) with 0 by field. apply acos_0. }
  assert (HM : dir_mat 1 0 0 1 (PI / 2) 0 = M3 1 0 0 0 0 1 0 (-1) 0).
  { unfold dir_mat. replace (PI / 2 - PI / 2) with 0 by ring.
    rewrite tan_0, sin_PI2. f_equal; field. }
  unfold u_dt_of. cbn [v3x v3y v3z]. rewrite Hr, Ht, HM.
  unfold solve3. destruct (Req_EM_T _ 0) as [E|_].
  - exfalso. cbv [det3 m00 m01 m02 m10 m11 m12 m20 m21 m22] in E. lra.
  - cbv [det3 m00 m01 m02 m10 m11 m12 m20 m21 m22 v3x v3y v3z]. f_equal; f_equal; field.
Qed.

Lemma u_dt_coordinate_velocity_witness :
  u_dt_of 0 (V3 1 0 0) (V3 1 2 3) = Some (V4 1 1 (-3) 2) /\
  v4_0 (V4 1 1 (-3) 2) = 1 /\
  exists J, is_bl_jacobian 0 (xyz_to_bl_r 0 (V3 1 0 0)) (xyz_to_bl_theta 0 (V3 1 0 0))
                          (xyz_to_bl_phi (V3 1 0 0)) J /\
            matvec3 J (V3 1 (-3) 2) = V3 1 2 3.
Proof.
  assert (H1 : 0 < v3x (V3 1 0 0) * v3x (V3 1 0 0) + v3y (V3 1 0 0) * v3y (V3 1 0 0))
    by (cbn; lra).
  assert (H2 : v3z (V3 1 0 0) <> 0 \/
               0 * 0 < v3x (V3 1 0 0) * v3x (V3 1 0 0) + v3y (V3 1 0 0) * v3y (V3 1 0 0))
    by (right; cbn; lra).
  split; [exact u_dt_example|].
  exact (u_dt_coordinate_velocity 0 (V3 1 0 0) (V3 1 2 3) (V4 1 1 (-3) 2) H1 H2 u_dt_example).
Defined.


(** ** The Keplerian initial state (lines 59-70) *)

Lemma sqrt_1_e2_sq (e : R) : -1 < e < 1 -> sqrt (1 - e * e) * sqrt (1 - e * e) = 1 - e * e.
Proof. intros He. apply sqrt_sqrt. nra. Qed.

Lemma kepler_factor_pos (ecc E : R) : -1 < ecc < 1 -> 0 < 1 - ecc * cos E.
Proof.
  intros He. pose proof (COS_bound E) as [Hc1 Hc2].
  destruct (Rle_dec 0 ecc).
  - assert (0 <= ecc * (1 - cos E)) by (apply Rmult_le_pos; lra). nra.
  - assert (0 <= - ecc * (1 + cos E)) by (apply Rmult_le_pos; lra). nra.
Qed.

Lemma x_orb_norm_aux (sma ecc E : R) :
  0 <= sma -> -1 < ecc < 1 ->
  norm3 (x_orb_at sma ecc E) = sma * (1 - ecc * cos E).
Proof.
  intros Hs He. unfold norm3, x_orb_at, dot3. cbn [v3x v3y v3z].
  pose proof (sqrt_1_e2_sq ecc He) as Hq. pose proof (sin_cos_sq E) as Hsc.
  pose proof (kepler_factor_pos ecc E He) as Hk.
  apply sqrt_eq_of_sq; [apply Rmult_le_pos; lra|].
  transitivity (sma * sma * ((cos E - ecc) * (cos E - ecc)
                  + sqrt (1 - ecc * ecc) * sqrt (1 - ecc * ecc) * (sin E * sin E))); [|ring].
  rewrite Hq. replace (sin E * sin E) with (1 - cos E * cos E) by lra. ring.
Qed.

(** Lines 60-63: for an eccentricity in [0, 1), [x_orb] at eccentric anomaly
    [E] lies on the Kepler ellipse of semi-major axis [sma] and eccentricity
    [ecc] centred at [(-sma * ecc, 0, 0)], and [np.linalg.norm(x_orb)], its
    distance to the focus at the origin, is [sma * (1 - ecc * cos E)]:
    [sma * (1 + ecc)] at the apoapsis [E = pi] the script uses. *)
Theorem x_orb_on_kepler_ellipse (sma ecc E : R) :
  0 < sma -> 0 <= ecc < 1 ->
  let x := x_orb_at sma ecc E in
  ((v3x x + sma * ecc) / sma) ^ 2 + (v3y x / (sma * sqrt (1 - ecc * ecc))) ^ 2 = 1 /\
  v3z x = 0 /\
  norm3 x = sma * (1 - ecc * cos E).
Proof.
  intros Hs He. cbv zeta.
  assert (He' : -1 < ecc < 1) by lra.
  pose proof (sqrt_1_e2_sq ecc He') as Hq.
  assert (Hq0 : 0 < sqrt (1 - ecc * ecc)) by (apply sqrt_lt_R0; nra).
  split; [|split; [unfold x_orb_at; cbn; ring | apply x_orb_norm_aux; lra]].
  unfold x_orb_at. cbn [v3x v3y].
  replace ((sma * (cos E - ecc) + sma * ecc) / sma) with (cos E) by (field; lra).
  replace (sma * (sqrt (1 - ecc * ecc) * sin E) / (sma * sqrt (1 - ecc * ecc))) with (sin E)
    by (field; lra).
  pose proof (sin_cos_sq E). nra.
Qed.

Lemma x_orb_on_kepler_ellipse_witness :
  0 < 1 /\ 0 <= 0 < 1 /\
  let x := x_orb_at 1 0 PI in
  ((v3x x + 1 * 0) / 1) ^ 2 + (v3y x / (1 * sqrt (1 - 0 * 0))) ^ 2 = 1 /\
  v3z x = 0 /\ norm3 x = 1 * (1 - 0 * cos PI).
Proof.
  assert (H1 : 0 < 1) by lra. assert (H2 : 0 <= 0 < 1) by lra.
  split; [exact H1|]. split; [exact H2|].
  exact (x_orb_on_kepler_ellipse 1 0 PI H1 H2).
Defined.

Lemma v_orb_scale (sma ecc E period : R) :
  0 < sma -> -1 < ecc < 1 -> period <> 0 ->
  2 * PI * sma * sma / (norm3 (x_orb_at sma ecc E) * period)
  = 2 * PI * sma / ((1 - ecc * cos E) * period).
Proof.
  intros Hs He Hp. rewrite x_orb_norm_aux by lra.
  assert (0 < 1 - ecc * cos E) by (apply kepler_factor_pos; lra).
  field. split; [exact Hp | lra].
Qed.

(** Lines 60-70: the starting velocity obeys Kepler's second law: the
    angular momentum per unit mass [x_orb x v_orb] (its [z] component; the
    others vanish) is [2 pi sma^2 sqrt(1 - ecc^2) / period], the same at
    every eccentric anomaly. *)
Theorem v_orb_areal_velocity (sma ecc E period : R) :
  0 < sma -> 0 <= ecc < 1 -> period <> 0 ->
  let x := x_orb_at sma ecc E in
  let v := v_orb_at sma ecc E period in
  v3x x * v3y v - v3y x * v3x v = 2 * PI * sma * sma * sqrt (1 - ecc * ecc) / period /\
  v3y x * v3z v - v3z x * v3y v = 0 /\
  v3z x * v3x v - v3x x * v3z v = 0.
Proof.
  intros Hs He Hp. cbv zeta. unfold v_orb_at. rewrite v_orb_scale by lra.
  assert (0 < 1 - ecc * cos E) by (apply kepler_factor_pos; lra).
  pose proof (sin_cos_sq E) as Hsc.
  unfold x_orb_at. cbn [v3x v3y v3z].
  split; [|split; ring].
  transitivity (2 * PI * sma / ((1 - ecc * cos E) * period) * sma * sqrt (1 - ecc * ecc)
                * ((cos E * cos E + sin E * sin E) - ecc * cos E)); [ring|].
  replace (cos E * cos E + sin E * sin E) with 1 by lra.
  field. split; [exact Hp | lra].
Qed.

Lemma v_orb_areal_velocity_witness :
  0 < 1 /\ 0 <= 0 < 1 /\ 1 <> 0 /\
  let x := x_orb_at 1 0 PI in
  let v := v_orb_at 1 0 PI 1 in
  v3x x * v3y v - v3y x * v3x v = 2 * PI * 1 * 1 * sqrt (1 - 0 * 0) / 1 /\
  v3y x * v3z v - v3z x * v3y v = 0 /\
  v3z x * v3x v - v3x x * v3z v = 0.
Proof.
  assert (H1 : 0 < 1) by lra. assert (H2 : 0 <= 0 < 1) by lra. assert (H3 : 1 <> 0) by lra.
  split; [exact H1|]. split; [exact H2|]. split; [exact H3|].
  exact (v_orb_areal_velocity 1 0 PI 1 H1 H2 H3).
Defined.

(** Lines 60-70: the starting speed obeys the vis-viva equation of the
    Kepler orbit, [|v|^2 = mu (2 / |x| - 1 / sma)], with [mu] given by
    Kepler's third law, [mu = (2 pi / period)^2 sma^3]. *)
Theorem v_orb_vis_viva (sma ecc E period : R) :
  0 < sma -> 0 <= ecc < 1 -> period <> 0 ->
  let x := x_orb_at sma ecc E in
  let v := v_orb_at sma ecc E period in
  dot3 v v = (2 * PI / period) ^ 2 * sma ^ 3 * (2 / norm3 x - 1 / sma).
Proof.
  intros Hs He Hp. cbv zeta. unfold v_orb_at. rewrite v_orb_scale by lra.
  rewrite x_orb_norm_aux by lra.
  assert (0 < 1 - ecc * cos E) by (apply kepler_factor_pos; lra).
  assert (He' : -1 < ecc < 1) by lra.
  pose proof (sqrt_1_e2_sq ecc He') as Hq.
  pose proof (sin_cos_sq E) as Hsc.
  unfold dot3. cbn [v3x v3y v3z].
  transitivity ((2 * PI * sma / ((1 - ecc * cos E) * period)) ^ 2 *
                (sin E * sin E + cos E * cos E * (sqrt (1 - ecc * ecc) * sqrt (1 - ecc * ecc))));
    [ring|].
  rewrite Hq. replace (sin E * sin E) with (1 - cos E * cos E) by lra.
  field. repeat split; lra.
Qed.

Lemma v_orb_vis_viva_witness :
  0 < 1 /\ 0 <= 0 < 1 /\ 1 <> 0 /\
  dot3 (v_orb_at 1 0 PI 1) (v_orb_at 1 0 PI 1)
  = (2 * PI / 1) ^ 2 * 1 ^ 3 * (2 / norm3 (x_orb_at 1 0 PI) - 1 / 1).
Proof.
  assert (H1 : 0 < 1) by lra. assert (H2 : 0 <= 0 < 1) by lra. assert (H3 : 1 <> 0) by lra.
  split; [exact H1|]. split; [exact H2|]. split; [exact H3|].
  exact (v_orb_vis_viva 1 0 PI 1 H1 H2 H3).
Defined.


(** ** The precession angle *)

Lemma atan2_range (y x : R) : - PI < atan2 y x <= PI.
Proof.
  pose proof PI_RGT_0 as Hpi.
  unfold atan2.
  destruct (Rlt_dec 0 x) as [Hx|Hx].
  - pose proof (atan_bound (y / x)). lra.
  - destruct (Rlt_dec x 0) as [Hx'|Hx'].
    + assert (Hi : / x < 0) by (apply Rinv_lt_0_compat; exact Hx').
      pose proof (atan_bound (y / x)) as Hb.
      destruct (Rle_dec 0 y) as [Hy|Hy].
      * assert (Hq : y / x <= 0) by (unfold Rdiv; nra).
        assert (atan (y / x) <= 0).
        { destruct (Req_dec (y / x) 0) as [E|E].
          - rewrite E, atan_0. lra.
          - rewrite <- atan_0. left. apply atan_increasing. lra. }
        lra.
      * assert (Hq : 0 < y / x) by (unfold Rdiv; nra).
        assert (0 < atan (y / x)) by (rewrite <- atan_0; apply atan_increasing; exact Hq).
        lra.
    + destruct (Rlt_dec 0 y); [lra|].
      destruct (Rlt_dec y 0); lra.
Qed.

Lemma fancy_Forall {A : Type} (P : A -> Prop) (l : list A) (idx : list nat) (vs : list A) :
  Forall P l -> fancy l idx = Ok vs -> Forall P vs.
Proof.
  intros Hl. revert vs. induction idx as [|i rest IH]; intros vs H.
  - injection H as <-. constructor.
  - cbn [fancy] in H. unfold getitem in H.
    destruct (nth_error l i) as [v|] eqn:E; [|discriminate]. cbn [rbind] in H.
    destruct (fancy l rest) as [ws|e]; [|discriminate]. cbn [rbind] in H.
    injection H as <-. constructor; [|exact (IH ws eq_refl)].
    rewrite Forall_forall in Hl. apply Hl. eapply nth_error_In. exact E.
Qed.

Lemma deltaphase_range_aux (orbit_orb : list vec3) (imaxs : list nat) (d : R) :
  deltaphase_of (map (fun p => atan2 (v3y p) (v3x p)) orbit_orb) imaxs = Ok d ->
  0 < d <= 2 * PI.
Proof.
  unfold deltaphase_of.
  destruct (fancy _ imaxs) as [ph|e] eqn:E; [|discriminate]. cbn [rbind].
  unfold getitem. destruct (nth_error ph 1) as [x|] eqn:Ex; [|discriminate].
  cbn [rbind]. intros H. injection H as <-.
  assert (Hall : Forall (fun t => - PI < t <= PI)
                        (map (fun p => atan2 (v3y p) (v3x p)) orbit_orb)).
  { rewrite Forall_map. apply Forall_forall. intros p _. apply atan2_range. }
  pose proof (fancy_Forall _ _ _ _ Hall E) as Hph.
  rewrite Forall_forall in Hph. pose proof (Hph x (nth_error_In _ _ Ex)). lra.
Qed.

(** Lines 216 and 221: [phase] is [np.arctan2] of the orbital-plane
    positions, in [(-pi, pi]], so whenever [deltaphase = phase[imaxs][1] +
    np.pi] is computed (at least two indices, all in range) it lies in
    [(0, 2 pi]]: the precession is reported as an angle in one turn, never
    negative. *)
Theorem deltaphase_in_one_turn (orbit_orb : list vec3) (imaxs : list nat) (d : R) :
  deltaphase_of (map (fun p => atan2 (v3y p) (v3x p)) orbit_orb) imaxs = Ok d ->
  0 < d <= 2 * PI.
Proof. exact (deltaphase_range_aux orbit_orb imaxs d). Qed.

Lemma deltaphase_in_one_turn_witness :
  deltaphase_of (map (fun p => atan2 (v3y p) (v3x p)) [V3 1 0 0; V3 (-1) 0 0]) [0%nat; 1%nat]
  = Ok (atan2 0 (-1) + PI) /\
  0 < atan2 0 (-1) + PI <= 2 * PI.
Proof.
  assert (H : deltaphase_of (map (fun p => atan2 (v3y p) (v3x p)) [V3 1 0 0; V3 (-1) 0 0])
                            [0%nat; 1%nat] = Ok (atan2 0 (-1) + PI)) by reflexivity.
  split; [exact H|].
  exact (deltaphase_in_one_turn _ _ _ H).
Defined.

(** ** The minimum distance *)

Lemma list_min_le (l : list R) (m d : R) : list_min l = Some m -> In d l -> m <= d.
Proof.
  revert m. induction l as [|x rest IH]; intros m Hm Hd; [destruct Hd|].
  cbn [list_min] in Hm. destruct (list_min rest) as [m'|] eqn:E.
  - injection Hm as <-. destruct Hd as [<-|Hd]; [apply Rmin_l|].
    pose proof (IH m' eq_refl Hd). pose proof (Rmin_r x m'). lra.
  - injection Hm as <-. destruct Hd as [<-|Hd]; [lra|].
    destruct rest; [destruct Hd | cbn [list_min] in E; destruct (list_min rest); discriminate].
Qed.

Lemma list_min_in (l : list R) (m : R) : list_min l = Some m -> In m l.
Proof.
  revert m. induction l as [|x rest IH]; intros m Hm; [discriminate|].
  cbn [list_min] in Hm. destruct (list_min rest) as [m'|] eqn:E.
  - injection Hm as <-. unfold Rmin. destruct (Rle_dec x m'); [left; reflexivity|].
    right. apply IH. reflexivity.
  - injection Hm as <-. left. reflexivity.
Qed.

Lemma list_min_some (l : list R) (d : R) : In d l -> exists m, list_min l = Some m.
Proof.
  destruct l as [|x rest]; [intros []|]. intros _. cbn [list_min].
  destruct (list_min rest); eexists; reflexivity.
Qed.

Lemma minimum_distance_bounds_aux (odeint : integrator) (x y : R) (pos : vec3) (a : R) (nt : nat) :
  let ray := ray_of odeint x y a nt in
  let d := snd (minimum_distance odeint x y pos a nt) in
  (forall s, In s ray -> d <= sample_distance a pos s) /\
  (d < sqrt 2 * z_inf -> exists s, In s ray /\ sample_distance a pos s = d).
Proof.
  cbv zeta. unfold minimum_distance. cbn [snd]. rewrite distance_from_ray_eq.
  split.
  - intros s Hs.
    assert (Hin : In (sample_distance a pos s) (map (sample_distance a pos) (ray_of odeint x y a nt)))
      by (apply in_map; exact Hs).
    destruct (list_min_some _ _ Hin) as [m Hm]. rewrite Hm.
    pose proof (list_min_le _ _ _ Hm Hin). pose proof (Rmin_r (sqrt 2 * z_inf) m). lra.
  - destruct (list_min _) as [m|] eqn:Hm; [|lra].
    intros Hlt.
    assert (Hmin : Rmin (sqrt 2 * z_inf) m = m).
    { unfold Rmin in *. destruct (Rle_dec (sqrt 2 * z_inf) m); lra. }
    rewrite Hmin. apply list_min_in in Hm. apply in_map_iff in Hm as (s & Hs & Hin).
    exists s. split; assumption.
Qed.

(** Lines 284-292: the value of [minimum_distance] is at most the distance
    from the target of every sample of the integrated ray, and, when it is
    below the starting value [sqrt 2 * z_inf], it is the distance of one of
    the samples. *)
Theorem minimum_distance_lower_bound (odeint : integrator) (x y : R) (pos : vec3) (a : R) (nt : nat) :
  let ray := ray_of odeint x y a nt in
  let d := snd (minimum_distance odeint x y pos a nt) in
  (forall s, In s ray -> d <= sample_distance a pos s) /\
  (d < sqrt 2 * z_inf -> exists s, In s ray /\ sample_distance a pos s = d).
Proof. exact (minimum_distance_bounds_aux odeint x y pos a nt). Qed.

Lemma list_min_app (l1 l2 : list R) :
  list_min (l1 ++ l2) =
  match list_min l1, list_min l2 with
  | Some m1, Some m2 => Some (Rmin m1 m2)
  | Some m1, None => Some m1
  | None, o => o
  end.
Proof.
  induction l1 as [|x rest IH]; [cbn [app list_min]; destruct (list_min l2); reflexivity|].
  cbn [app list_min]. rewrite IH.
  destruct (list_min rest) as [m1|]; destruct (list_min l2) as [m2|]; try reflexivity.
  rewrite Rmin_assoc. reflexivity.
Qed.

(** Lines 276-292: splitting the integrated ray in two pieces, the distance
    for the whole ray is the smaller of the distances for the pieces. *)
Theorem distance_from_ray_app (ray1 ray2 : list ray_state) (pos : vec3) (a : R) :
  distance_from_ray (ray1 ++ ray2) pos a
  = Rmin (distance_from_ray ray1 pos a) (distance_from_ray ray2 pos a).
Proof.
  rewrite !distance_from_ray_eq, map_app, list_min_app.
  set (S := sqrt 2 * z_inf).
  destruct (list_min (map (sample_distance a pos) ray1)) as [m1|];
    destruct (list_min (map (sample_distance a pos) ray2)) as [m2|];
    unfold Rmin; repeat destruct Rle_dec; lra.
Qed.


(** ** The grid scan *)

Lemma getitem_nth {A : Type} (l : list A) (i : nat) (d : A) :
  (i < length l)%nat -> getitem l i = Ok (nth i l d).
Proof. intros H. unfold getitem. rewrite (nth_error_nth' l d H). reflexivity. Qed.

Lemma set_nth_firstn {A : Type} (l : list A) (i k : nat) (v d : A) :
  (i < length l)%nat ->
  nth k (firstn i l ++ v :: skipn (S i) l) d = if Nat.eqb k i then v else nth k l d.
Proof.
  revert i k. induction l as [|x rest IH]; intros i k H; cbn [length] in H; [lia|].
  destruct i as [|i].
  - destruct k as [|k]; reflexivity.
  - destruct k as [|k]; [reflexivity|].
    cbn [firstn skipn app nth]. rewrite IH by lia. reflexivity.
Qed.

Lemma list_set_ok {A : Type} (l : list A) (i : nat) (v : A) :
  (i < length l)%nat ->
  exists l', list_set l i v = Ok l' /\ length l' = length l /\
             (forall k d, nth k l' d = if Nat.eqb k i then v else nth k l d).
Proof.
  intros H. unfold list_set. rewrite (proj2 (Nat.ltb_lt _ _) H).
  eexists. split; [reflexivity|]. split.
  - rewrite length_app, length_firstn. cbn [length]. rewrite length_skipn. lia.
  - intros k d. apply set_nth_firstn. exact H.
Qed.

Lemma grid_set_ok (g : list (list R)) (rows cols j i : nat) (v : R) :
  grid_shape g rows cols -> (j < rows)%nat -> (i < cols)%nat ->
  exists g', grid_set g j i v = Ok g' /\ grid_shape g' rows cols /\
    forall jj ii, nth ii (nth jj g' []) 0 =
                  if Nat.eqb jj j && Nat.eqb ii i then v else nth ii (nth jj g []) 0.
Proof.
  intros [Hlen Hrows] Hj Hi. unfold grid_set.
  rewrite (getitem_nth g j [] ltac:(lia)). cbn [rbind].
  destruct (list_set_ok (nth j g []) i v ltac:(rewrite (Hrows j Hj); exact Hi)) as (row' & Hr & Hrl & Hrn).
  rewrite Hr. cbn [rbind].
  destruct (list_set_ok g j row' ltac:(lia)) as (g' & Hg & Hgl & Hgn).
  exists g'. split; [exact Hg|]. split; [split|].
  - lia.
  - intros jj Hjj. rewrite Hgn. destruct (Nat.eqb_spec jj j) as [->|]; [rewrite Hrl; apply Hrows; exact Hjj|].
    apply Hrows. exact Hjj.
  - intros jj ii. rewrite Hgn. destruct (Nat.eqb_spec jj j) as [->|]; cbn [andb].
    + apply Hrn.
    + reflexivity.
Qed.

Lemma scan_ok (md : R -> R -> list mat3 * R) (xspace yspace : list R)
    (cs : list (nat * nat)) (g : list (list R)) (log : list out) :
  grid_shape g (length yspace) (length xspace) ->
  (forall i j, In (i, j) cs -> (i < length xspace)%nat /\ (j < length yspace)%nat) ->
  exists g', scan md xspace yspace cs g log =
             (log ++ flat_map (cell_log md xspace yspace) cs, Ok g') /\
    grid_shape g' (length yspace) (length xspace) /\
    forall ii jj,
      (In (ii, jj) cs -> nth ii (nth jj g' []) 0 = snd (md (nth ii xspace 0) (nth jj yspace 0))) /\
      (~ In (ii, jj) cs -> nth ii (nth jj g' []) 0 = nth ii (nth jj g []) 0).
Proof.
  revert g log. induction cs as [|[i j] cs IH]; intros g log Hg Hcs.
  - exists g. split; [cbn; rewrite app_nil_r; reflexivity|]. split; [exact Hg|].
    intros ii jj. split; [intros []|reflexivity].
  - destruct (Hcs i j (or_introl eq_refl)) as [Hi Hj].
    cbn [scan]. rewrite (getitem_nth xspace i 0 Hi), (getitem_nth yspace j 0 Hj).
    destruct (md (nth i xspace 0) (nth j yspace 0)) as [printed d] eqn:Hmd.
    destruct (grid_set_ok g _ _ j i d Hg Hj Hi) as (g1 & Hset & Hg1 & Hv1).
    rewrite Hset.
    destruct (IH g1 ((log ++ map OMat printed) ++ [OIJ i j]) Hg1
                 (fun i' j' H => Hcs i' j' (or_intror H))) as (g' & Hs & Hg' & Hv).
    exists g'. split; [|split; [exact Hg'|]].
    + rewrite Hs. cbn [flat_map cell_log]. rewrite Hmd. cbn [fst].
      rewrite !app_assoc. reflexivity.
    + intros ii jj. destruct (Hv ii jj) as [Hin Hout].
      pose proof (in_dec (ltac:(decide equality; apply Nat.eq_dec)
                          : forall p q : nat * nat, {p = q} + {p <> q}) (ii, jj) cs) as Hdec.
      split.
      * intros [Heq | H]; [|exact (Hin H)].
        injection Heq as <- <-.
        destruct Hdec as [H | H]; [exact (Hin H)|].
        rewrite (Hout H), Hv1, !Nat.eqb_refl. cbn [andb]. rewrite Hmd. reflexivity.
      * intros Hn. rewrite Hout by (intros H; apply Hn; right; exact H).
        rewrite Hv1.
        destruct (Nat.eqb_spec jj j) as [->|]; destruct (Nat.eqb_spec ii i) as [->|];
          cbn [andb]; try reflexivity.
        exfalso. apply Hn. left. reflexivity.
Qed.

Lemma zeros2_shape (rows cols : nat) : grid_shape (zeros2 rows cols) rows cols.
Proof.
  unfold zeros2. split; [apply repeat_length|].
  intros jj Hjj. rewrite nth_repeat_lt by exact Hjj. apply repeat_length.
Qed.

Lemma cells_in (i j : nat) : In (i, j) cells <-> (i < nx)%nat /\ (j < nx)%nat.
Proof.
  unfold cells. rewrite in_flat_map. split.
  - intros (i' & Hi' & Hj). apply in_map_iff in Hj as (j' & Heq & Hj').
    injection Heq as -> ->. apply in_seq in Hi', Hj'. lia.
  - intros [Hi Hj]. exists i. split; [apply in_seq; lia|].
    apply in_map_iff. exists j. split; [reflexivity|apply in_seq; lia].
Qed.

Lemma grid_scan_fills_aux (odeint : integrator) (peri_obs : vec3) (a : R) :
  let md := fun x y => minimum_distance odeint x y peri_obs a 10000 in
  let xspace := linspace (-2231) (-2229) nx in
  let yspace := linspace 387 389 ny in
  exists g,
    grid_scan odeint peri_obs a =
      (OClosest 0 :: flat_map (cell_log md xspace yspace) cells, Ok g) /\
    length g = ny /\ (forall j, (j < ny)%nat -> length (nth j g []) = nx) /\
    (forall i j, (i < nx)%nat -> (j < ny)%nat ->
       nth i (nth j g []) 0 = snd (md (nth i xspace 0) (nth j yspace 0))).
Proof.
  cbv zeta.
  set (md := fun x y => minimum_distance odeint x y peri_obs a 10000).
  set (xspace := linspace (-2231) (-2229) nx).
  set (yspace := linspace 387 389 ny).
  assert (Hx : length xspace = nx) by reflexivity.
  assert (Hy : length yspace = ny) by reflexivity.
  assert (H0 : np_min2 (zeros2 ny nx) = Ok 0)
    by (apply np_min2_zeros; unfold nx, ny; lia).
  assert (Hshape : grid_shape (zeros2 ny nx) (length yspace) (length xspace))
    by (rewrite Hx, Hy; apply zeros2_shape).
  assert (Hcs : forall i j, In (i, j) cells ->
                (i < length xspace)%nat /\ (j < length yspace)%nat).
  { intros i j H. apply cells_in in H. rewrite Hx, Hy. unfold ny. exact H. }
  destruct (scan_ok md xspace yspace cells (zeros2 ny nx) [OClosest 0] Hshape Hcs)
    as (g & Hs & [Hgl Hgr] & Hv).
  exists g. unfold grid_scan. fold xspace yspace md. rewrite H0, Hs.
  split; [reflexivity|]. rewrite Hx, Hy in *.
  split; [exact Hgl|]. split; [exact Hgr|].
  intros i j Hi Hj. apply (proj1 (Hv i j)). apply cells_in. unfold nx, ny in *. lia.
Qed.

(** Lines 299-313: whatever the integrator, the target and the spin, the
    double loop runs to its end without an exception (every [(i, j)] is in
    range of [xspace], [yspace] and [min_dist]); it prints, after
    ['Closest Ray: 0'], for each cell in loop order the matrices printed by
    [minimum_distance] and then [i j]; and the final [min_dist] is a
    [ny x nx] array whose entry [[j, i]] is
    [minimum_distance(xspace[i], yspace[j], peri_obs, a, 10000)]. *)
Theorem grid_scan_fills_grid (odeint : integrator) (peri_obs : vec3) (a : R) :
  let md := fun x y => minimum_distance odeint x y peri_obs a 10000 in
  let xspace := linspace (-2231) (-2229) nx in
  let yspace := linspace 387 389 ny in
  exists g,
    grid_scan odeint peri_obs a =
      (OClosest 0 :: flat_map (cell_log md xspace yspace) cells, Ok g) /\
    length g = ny /\ (forall j, (j < ny)%nat -> length (nth j g []) = nx) /\
    (forall i j, (i < nx)%nat -> (j < ny)%nat ->
       nth i (nth j g []) 0 = snd (md (nth i xspace 0) (nth j yspace 0))).
Proof. exact (grid_scan_fills_aux odeint peri_obs a). Qed.
